(** * lemmyw04b6eb792ca4a1: a shallow embedding of the Lemmy harvester

    The module [lemmyw04b6eb792ca4a1/__init__.py] samples Lemmy communities,
    walks their recent posts and comments and yields a capped, deduplicated
    stream of [Item]s.  This file embeds its functions and proves (or
    refutes at concrete inputs) the properties stated about them.

    Conventions of the embedding:
    - Python exceptions are values of [exn]; a computation that can raise
      returns a [result].
    - The network, the clock and the random generator form the [World];
      every call threads the world explicitly.
    - The local variables of the generator [query], together with the
      world and the trace of what the generator has done so far, form a
      [frame]; statements of [query] are actions of the monad [M].
    - The JSON documents of the Lemmy API are typed records whose fields
      are optional: reading an absent key raises [KeyError], as
      subscripting a [dict] does.  Identifiers are JSON integers. *)

From Stdlib Require Import Ascii.
From stdpp Require Import base numbers option list strings gmap pretty.

Open Scope Z_scope.

(** ** Exceptions and results *)

(** The exceptions the module can meet; all of them derive from Python's
    [Exception]. *)
Inductive exn : Type :=
| KeyError
| TypeError
| ValueError
| IndexError
| OverflowError
| UnboundLocalError
| TimeoutError
| ClientError
| JSONDecodeError
| ParserError.

Inductive result (A : Type) : Type :=
| Ok (a : A)
| Raise (e : exn).
Arguments Ok {A} a.
Arguments Raise {A} e.

Global Instance result_ret : MRet result := λ A a, Ok a.
Global Instance result_bind : MBind result := λ A B f r,
  match r with
  | Ok a => f a
  | Raise e => Raise e
  end.

(** ** Python values found in the parameter dictionary *)

Inductive pyval : Type :=
| PyInt (z : Z)
| PyStr (s : string)
| PyNone.

(** What a caller may pass as [parameters]: [None], a [dict], or an object
    of another type, of which only the truth value matters. *)
Inductive pyarg : Type :=
| ArgNone
| ArgDict (d : gmap string pyval)
| ArgOther (truthy : bool).

Definition truthy_arg (p : pyarg) : bool :=
  match p with
  | ArgNone => false
  | ArgDict d => negb (size d =? 0)%nat
  | ArgOther b => b
  end.

Definition isinstance_dict (p : pyarg) : bool :=
  match p with ArgDict _ => true | _ => false end.

(** [parameters.get(key, default)] *)
Definition dict_get (p : pyarg) (key : string) (dflt : pyval) : pyval :=
  match p with
  | ArgDict d => default dflt (d !! key)
  | _ => dflt
  end.

(** [a >= b] for the counter [a] and a parameter [b]: ordering an [int]
    against a [str] or [None] raises [TypeError]. *)
Definition py_ge (a : Z) (b : pyval) : result bool :=
  match b with
  | PyInt m => Ok (m <=? a)
  | _ => Raise TypeError
  end.

(** ** Module constants *)

Definition LEMMY_NB_COMMUNITIES_TO_BROWSE : nat := 10.
Definition LEMMY_DEFAULT_TOP_COMMUNITIES : nat := 10.
Definition USER_AGENT_LIST : list string :=
  ["Mozilla/5.0 (Windows NT 10.0; Win64; x64) AppleWebKit/537.36 (KHTML, like Gecko) Chrome/115.0.0.0 Safari/537.36"%string].

Definition DEFAULT_MIN_POST_LENGTH : Z := 10.
Definition DEFAULT_MAXIMUM_ITEMS : Z := 100.
Definition DEFAULT_OLDNESS_SECONDS : Z := 3600.

(** ** read_parameters *)

(** Reading a local variable that no executed statement has assigned. *)
Definition read_local {A} (v : option A) : result A :=
  match v with
  | Some a => Ok a
  | None => Raise UnboundLocalError
  end.

(** The three locals are [None] until assigned.  The [if] branch assigns
    all three with [dict.get] (which never raises [KeyError], so the
    [except] clauses are dead); the [else] branch assigns
    [min_post_length] only.  The [return] then reads all three. *)
Definition read_parameters (parameters : pyarg) : result (pyval * pyval * pyval) :=
  let '(max_oldness_seconds, maximum_items_to_collect, min_post_length) :=
    if truthy_arg parameters && isinstance_dict parameters then
      (Some (dict_get parameters "max_oldness_seconds" (PyInt DEFAULT_OLDNESS_SECONDS)),
       Some (dict_get parameters "maximum_items_to_collect" (PyInt DEFAULT_MAXIMUM_ITEMS)),
       Some (dict_get parameters "min_post_length" (PyInt DEFAULT_MIN_POST_LENGTH)))
    else
      (None, None, Some (PyInt DEFAULT_MIN_POST_LENGTH)) in
  a ← read_local max_oldness_seconds;
  b ← read_local maximum_items_to_collect;
  c ← read_local min_post_length;
  mret (a, b, c).

(** ** sanitize_text *)

Definition backslash : Ascii.ascii := "\"%char.
Definition newline : Ascii.ascii := "010"%char.

(** One match of [escape_character_pattern = re.compile(r"\\.")] at the
    head of a text: a backslash followed by one character that is not a
    newline ([.] does not match a newline without [re.DOTALL]). *)
Definition escape_match (c d : Ascii.ascii) : bool :=
  bool_decide (c = backslash) && negb (bool_decide (d = newline)).

(** [escape_character_pattern.sub("", text)]: the leftmost matches, not
    overlapping, are deleted in one scan from left to right. *)
Fixpoint sanitize_text (text : string) : string :=
  match text with
  | EmptyString => EmptyString
  | String c rest =>
      match rest with
      | EmptyString => String c EmptyString
      | String d rest' =>
          if escape_match c d then sanitize_text rest'
          else String c (sanitize_text rest)
      end
  end.

(** [escape_character_pattern.search(text) is not None] *)
Fixpoint has_escape (text : string) : bool :=
  match text with
  | EmptyString => false
  | String c rest =>
      match rest with
      | EmptyString => false
      | String d _ => escape_match c d || has_escape rest
      end
  end.

(** ** Small string helpers of the Python runtime *)

(** [sep.join(l)] *)
Fixpoint str_join (sep : string) (l : list string) : string :=
  match l with
  | [] => ""
  | [s] => s
  | s :: l' => s +:+ sep +:+ str_join sep l'
  end.

(** [s.replace("Z", "+00:00")] *)
Fixpoint replace_Z (s : string) : string :=
  match s with
  | EmptyString => EmptyString
  | String c s' =>
      if bool_decide (c = "Z"%char) then "+00:00" +:+ replace_Z s'
      else String c (replace_Z s')
  end.

(** ** The documents of the Lemmy API

    Every field the module subscripts is optional here; [None] is the
    absent key. *)

Record community : Type := Community {
  co_name : option string;
  co_title : option string;
}.

(** An entry of ["communities"]: [v["community"]]. *)
Record community_view : Type := CommunityView {
  cv_community : option community;
}.

Record post : Type := Post {
  po_id : option Z;
  po_ap_id : option string;
  po_creator_id : option Z;
  po_published : option string;
  po_body : option string;
  po_name : option string;
}.

(** An entry of ["posts"]: [_post["post"]]. *)
Record post_view : Type := PostView {
  pv_post : option post;
}.

Record comment : Type := Comment {
  cm_id : option Z;
  cm_content : option string;
  cm_published : option string;
  cm_ap_id : option string;
  cm_post_id : option Z;
  cm_creator_id : option Z;
}.

(** An entry of ["comments"]: [comment["comment"]]. *)
Record comment_view : Type := CommentView {
  cmv_comment : option comment;
}.

(** The bodies of the three endpoints. *)
Record communities_json : Type := CommunitiesJson {
  cj_communities : option (list community_view);
}.
Record posts_json : Type := PostsJson {
  pj_posts : option (list post_view);
}.
Record comments_json : Type := CommentsJson {
  cmj_comments : option (list comment_view);
}.

(** What one [session.get] gives: a response with its status, whose
    [response.json()] yields the body or raises, or an exception raised by
    the client itself (the timeout of [BASE_TIMEOUT] seconds, a connection
    error). *)
Inductive http_outcome (B : Type) : Type :=
| Response (status : Z) (json : result B)
| Failed (e : exn).
Arguments Response {B} status json.
Arguments Failed {B} e.

Inductive request : Type :=
| CommunityList (sort : string)
| PostList (community_name : string)
| CommentList (post_id : Z).

(** ** The emitted record ([exorde_data.Item]) *)

Record Item : Type := MkItem {
  content : string;
  created_at : string;
  domain : string;
  title : string;
  url : string;
  external_id : string;
  external_parent_id : option string;
}.

(** ** What the generator does, in order

    The trace records the requests, the readings of the clock, the yields
    and two of the log lines; the other [logging.info] lines have no
    effect on what follows and are left out.  The constructors of
    [exorde_data] are taken to build the record they are given. *)

Inductive event : Type :=
| EvGet (r : request)                     (* a GET is issued *)
| EvNow (t : Z)                           (* [datetime.now(timezone.utc)] is read *)
| EvYield (i : Item)                      (* [yield] *)
| EvBudgetReached (yielded : Z) (maximum : pyval)
                                          (* "Maximum items to collect reached" *)
| EvException (e : exn).                  (* [logging.exception] of the handler *)

(** The Items yielded along a trace, in order. *)
Fixpoint yielded (tr : list event) : list Item :=
  match tr with
  | [] => []
  | EvYield i :: tr' => i :: yielded tr'
  | _ :: tr' => yielded tr'
  end.

(** ** The outside world and the libraries *)

(** The result of [datetime.fromisoformat]: a [ValueError], a datetime
    without offset, or an aware one (microseconds since the epoch). *)
Inductive parsed_datetime : Type :=
| BadFormat
| Naive
| Aware (t : Z).

(** The network, the clock and the random generator.  Each operation takes
    the world and gives the world after it.  [randbelow n] stands for
    [random._randbelow(n)], [utcnow] for [datetime.now(timezone.utc)] in
    microseconds since the epoch; the three [get_*] take the argument of
    the URL and the User-Agent header. *)
Class World (W : Type) : Type := {
  randbelow : nat → W → nat * W;
  utcnow : W → Z * W;
  get_community_list : string → string → W → http_outcome communities_json * W;
  get_post_list : string → string → W → http_outcome posts_json * W;
  get_comment_list : Z → string → W → http_outcome comments_json * W;
}.

(** Pure functions of the libraries the module imports: [wordsegment],
    [lxml.html] and [datetime]. *)
Class Library : Type := {
  segment : string → list string;
  html_text_content : string → result string;
  fromisoformat : string → parsed_datetime;
}.

(** [timedelta(seconds=s)] in microseconds: a [TypeError] for a value that
    is not a number, an [OverflowError] beyond 999999999 days. *)
Definition timedelta (seconds : pyval) : result Z :=
  match seconds with
  | PyInt s =>
      if bool_decide (-999999999 ≤ s `div` 86400 ≤ 999999999)
      then Ok (s * 1000000)
      else Raise OverflowError
  | _ => Raise TypeError
  end.

(** [now - d] for an aware [now]: subtracting a datetime without offset
    raises [TypeError]. *)
Definition datetime_sub (now : Z) (d : parsed_datetime) : result Z :=
  match d with
  | Aware t => Ok (now - t)
  | _ => Raise TypeError
  end.

(** [(now - created) < timedelta(seconds=max_oldness)], both sides in
    microseconds. *)
Definition fresh (now created max_oldness : Z) : Prop :=
  now - created < max_oldness * 1000000.

Section Harvester.
Context {W : Type} {the_world : World W} {the_library : Library}.

(** ** The frame of the generator and its monad *)

Record frame : Type := Frame {
  world : W;
  trace : list event;
  yielded_items : Z;
  id_found : gmap Z bool;
}.

Definition M (A : Type) : Type := frame → frame * result A.

#[export] Instance M_ret : MRet M := λ A a s, (s, Ok a).
#[export] Instance M_bind : MBind M := λ A B f m s,
  match m s with
  | (s', Ok a) => f a s'
  | (s', Raise e) => (s', Raise e)
  end.

Definition lift {A} (r : result A) : M A := λ s, (s, r).
Definition raise {A} (e : exn) : M A := lift (Raise e).

(** An operation of the world. *)
Definition io {A} (op : W → A * W) : M A := λ s,
  let '(a, w) := op (world s) in
  (Frame w (trace s) (yielded_items s) (id_found s), Ok a).

Definition emit (e : event) : M unit := λ s,
  (Frame (world s) (trace s ++ [e]) (yielded_items s) (id_found s), Ok ()).

Definition get_yielded_items : M Z := λ s, (s, Ok (yielded_items s)).
Definition set_yielded_items (n : Z) : M unit := λ s,
  (Frame (world s) (trace s) n (id_found s), Ok ()).
Definition get_id_found : M (gmap Z bool) := λ s, (s, Ok (id_found s)).
Definition set_id_found (m : gmap Z bool) : M unit := λ s,
  (Frame (world s) (trace s) (yielded_items s) m, Ok ()).

(** [try: body except Exception as e: handler] *)
Definition try_except (body : M unit) (handler : exn → M unit) : M unit := λ s,
  match body s with
  | (s', Raise e) => handler e s'
  | r => r
  end.

(** How the body of a [for] loop ends: normally, or by [break]. *)
Inductive ctl : Type := Next | Break.

(** [for x in l: body(x)] *)
Fixpoint for_each {A} (body : A → M ctl) (l : list A) : M unit :=
  match l with
  | [] => mret ()
  | x :: l' =>
      c ← body x;
      match c with
      | Break => mret ()
      | Next => for_each body l'
      end
  end.

(** [d[key]] on a document. *)
Definition getitem {A} (field : option A) : M A :=
  match field with
  | Some a => mret a
  | None => raise KeyError
  end.

(** [datetime.now(timezone.utc)] *)
Definition now : M Z :=
  t ← io utcnow;
  emit (EvNow t);;
  mret t.

(** [random.choice(seq)] *)
Definition random_choice {A} (seq : list A) : M A :=
  match seq with
  | [] => raise IndexError
  | _ =>
      j ← io (randbelow (length seq));
      match seq !! (j `mod` length seq)%nat with
      | Some a => mret a
      | None => raise IndexError
      end
  end.

(** [random.sample(population, k)]: a [ValueError] when the sample is
    larger than the population, otherwise [k] draws without replacement,
    the positions being those the generator gives. *)
Fixpoint draw {A} (pool : list A) (k : nat) : M (list A) :=
  match k with
  | O => mret []
  | S k' =>
      j ← io (randbelow (length pool));
      let j := (j `mod` length pool)%nat in
      match pool !! j with
      | Some a => rest ← draw (delete j pool) k'; mret (a :: rest)
      | None => raise IndexError
      end
  end.

Definition random_sample {A} (population : list A) (k : nat) : M (list A) :=
  if bool_decide (k ≤ length population)%nat then draw population k
  else raise ValueError.

(** [datetime.fromisoformat(s.replace("Z", "+00:00"))] *)
Definition parse_published (s : string) : M parsed_datetime :=
  match fromisoformat (replace_Z s) with
  | BadFormat => raise ValueError
  | d => mret d
  end.

(** ** The Remote Client

    The three functions have the shape
    [try: async with session.get(...) as response: ... finally: close];
    there is no [except] clause, so what [session.get] or
    [response.json()] raises leaves the function. *)

Definition fetch_communities (sort : string) : M (list community_view) :=
  user_agent ← random_choice USER_AGENT_LIST;
  emit (EvGet (CommunityList sort));;
  response ← io (get_community_list sort user_agent);
  match response with
  | Failed e => raise e
  | Response status json =>
      if bool_decide (status = 200) then
        data ← lift json;
        getitem (cj_communities data)
      else mret []
  end.

Definition fetch_new_posts_from_community (community_name : string)
  : M (option posts_json) :=
  user_agent ← random_choice USER_AGENT_LIST;
  emit (EvGet (PostList community_name));;
  response ← io (get_post_list community_name user_agent);
  match response with
  | Failed e => raise e
  | Response status json =>
      if bool_decide (status = 200) then
        data ← lift json;
        mret (Some data)
      else mret None
  end.

(** The loop of [fetch_comments_for_post] that keeps the fresh comments. *)
Fixpoint keep_fresh (max_oldness : pyval) (comments : list comment_view)
    (fresh_comments : list comment_view) : M (list comment_view) :=
  match comments with
  | [] => mret fresh_comments
  | comment :: comments' =>
      c ← getitem (cmv_comment comment);
      published_str ← getitem (cm_published c);
      published_date ← parse_published published_str;
      t ← now;
      age ← lift (datetime_sub t published_date);
      limit ← lift (timedelta max_oldness);
      if bool_decide (age < limit)
      then keep_fresh max_oldness comments' (fresh_comments ++ [comment])
      else keep_fresh max_oldness comments' fresh_comments
  end.

Definition fetch_comments_for_post (post_id : Z) (max_oldness : pyval)
  : M (option (list comment_view)) :=
  user_agent ← random_choice USER_AGENT_LIST;
  emit (EvGet (CommentList post_id));;
  response ← io (get_comment_list post_id user_agent);
  match response with
  | Failed e => raise e
  | Response status json =>
      if bool_decide (status = 200) then
        data ← lift json;
        let comments := default [] (cmj_comments data) in
        fresh_comments ← keep_fresh max_oldness comments [];
        mret (Some fresh_comments)
      else mret None
  end.

(** ** The Community Sampler *)

(** [d[k] = v] on a dict, which keeps the order of first insertion. *)
Fixpoint dict_set {V} (k : string) (v : V) (d : list (string * V))
  : list (string * V) :=
  match d with
  | [] => [(k, v)]
  | (k', v') :: d' =>
      if bool_decide (k' = k) then (k, v) :: d'
      else (k', v') :: dict_set k v d'
  end.

(** [{v["community"]["name"]: v for v in selected_communities}] *)
Fixpoint dict_by_name (selected_communities : list community_view)
    (d : list (string * community_view)) : M (list (string * community_view)) :=
  match selected_communities with
  | [] => mret d
  | v :: rest =>
      c ← getitem (cv_community v);
      name ← getitem (co_name c);
      dict_by_name rest (dict_set name v d)
  end.

(** [[community["community"]["title"] for community in selected_communities]] *)
Fixpoint titles_of (selected_communities : list community_view) : M (list string) :=
  match selected_communities with
  | [] => mret []
  | v :: rest =>
      c ← getitem (cv_community v);
      t ← getitem (co_title c);
      ts ← titles_of rest;
      mret (t :: ts)
  end.

(** Lines 217-228 of [query]: the sample of 10, the 10 of the top 10 when
    the list has more than 10 entries, and the removal of duplicates. *)
Definition select_communities (communities : list community_view)
  : M (list community_view) :=
  selected_communities ← random_sample communities LEMMY_NB_COMMUNITIES_TO_BROWSE;
  selected_communities ←
    (if bool_decide (LEMMY_DEFAULT_TOP_COMMUNITIES < length communities)%nat then
       top ← random_sample (take 10 communities) LEMMY_DEFAULT_TOP_COMMUNITIES;
       mret (selected_communities ++ top)
     else mret selected_communities);
  d ← dict_by_name selected_communities [];
  mret (d.*2).

(** ** The Traversal Engine *)

(** Lines 285-296 and 327-338 of [query], the same statements for a post
    and for a comment: a candidate whose id is not in [id_found] is
    yielded unless the budget is reached, in which case the loop around it
    is left by [break]. *)
Definition candidate (maximum_items_to_collect : pyval) (id : Z) (item : Item)
  : M ctl :=
  seen ← get_id_found;
  match seen !! id with
  | Some _ => mret Next
  | None =>
      n ← get_yielded_items;
      reached ← lift (py_ge n maximum_items_to_collect);
      if reached : bool then
        emit (EvBudgetReached n maximum_items_to_collect);;
        mret Break
      else
        set_yielded_items (n + 1);;
        set_id_found (<[id := true]> seen);;
        emit (EvYield item);;
        mret Next
  end.

(** The body of [for comment in comments] (lines 302-338). *)
Definition comment_iteration (maximum_items_to_collect : pyval)
    (post_title : string) (comment : comment_view) : M ctl :=
  c ← getitem (cmv_comment comment);
  comment_id ← getitem (cm_id c);
  comment_text ← getitem (cm_content c);
  let comment_content := sanitize_text comment_text in
  comment_date ← getitem (cm_published c);
  comment_url ← getitem (cm_ap_id c);
  comment_parent_id ← getitem (cm_post_id c);
  author_id ← getitem (cm_creator_id c);
  let comm_item_ :=
    MkItem comment_content comment_date "lemmy.world" post_title comment_url
           (pretty comment_id) (Some (pretty comment_parent_id)) in
  candidate maximum_items_to_collect comment_id comm_item_.

(** Lines 339-342: [if yielded_items >= maximum_items_to_collect: break]. *)
Definition break_if_reached (maximum_items_to_collect : pyval) : M ctl :=
  n ← get_yielded_items;
  reached ← lift (py_ge n maximum_items_to_collect);
  mret (if reached : bool then Break else Next).

(** The body of [for _post in posts["posts"]] (lines 255-340). *)
Definition post_iteration (max_oldness_seconds maximum_items_to_collect : pyval)
    (segmented_community_name : string) (_post : post_view) : M ctl :=
  post ← getitem (pv_post _post);
  post_id ← getitem (po_id post);
  post_url ← getitem (po_ap_id post);
  post_author_id ← getitem (po_creator_id post);
  post_date ← getitem (po_published post);
  let post_content := segmented_community_name in
  let post_title := ""%string in
  let post_content :=
    match po_body post with
    | Some body => post_content +:+ (". " +:+ body)
    | None => post_content
    end in
  let '(post_title, post_content) :=
    match po_name post with
    | Some name => (name, post_content +:+ name)
    | None => (post_title, post_content)
    end in
  post_content ← lift (html_text_content post_content);
  let post_content := sanitize_text post_content in
  t ← now;
  d ← parse_published post_date;
  age ← lift (datetime_sub t d);
  limit ← lift (timedelta max_oldness_seconds);
  c ← (if bool_decide (age < limit) then
         let post_item_ :=
           MkItem post_content post_date "lemmy.world" post_title post_url
                  (pretty post_id) None in
         candidate maximum_items_to_collect post_id post_item_
       else mret Next);
  match c with
  | Break => mret Break
  | Next =>
      comments ← fetch_comments_for_post post_id max_oldness_seconds;
      match comments with
      | Some ((_ :: _) as comments) =>
          for_each (comment_iteration maximum_items_to_collect post_title) comments
      | _ => mret ()
      end;;
      break_if_reached maximum_items_to_collect
  end.

(** The body of [for community_name in selected_communities]
    (lines 245-342). *)
Definition community_iteration (max_oldness_seconds maximum_items_to_collect : pyval)
    (community_name : community_view) : M ctl :=
  c ← getitem (cv_community community_name);
  community_name ← getitem (co_name c);
  posts ← fetch_new_posts_from_community community_name;
  let segmented_community_name_strs := segment community_name in
  let segmented_community_name := str_join " " segmented_community_name_strs in
  match posts with
  | Some (PostsJson (Some posts)) =>
      for_each (post_iteration max_oldness_seconds maximum_items_to_collect
                               segmented_community_name) posts
  | _ => mret ()
  end;;
  break_if_reached maximum_items_to_collect.

(** The body of the [try] (lines 217-342). *)
Definition browse (max_oldness_seconds maximum_items_to_collect : pyval)
    (communities : list community_view) : M unit :=
  selected_communities ← select_communities communities;
  titles ← titles_of selected_communities;
  let titles_str := str_join ", " titles +:+ "]" in
  for_each (community_iteration max_oldness_seconds maximum_items_to_collect)
           selected_communities.

Definition sorts : list string :=
  ["TopDay"; "TopWeek"; "TopMonth"; "TopYear"; "TopAll"]%string.

(** ** query *)

Definition query (parameters : pyarg) : M unit :=
  '(max_oldness_seconds, maximum_items_to_collect, min_post_length) ←
    lift (read_parameters parameters);
  set_yielded_items 0;;
  selected_sort ← random_choice sorts;
  communities ← fetch_communities selected_sort;
  set_id_found ∅;;
  match communities with
  | _ :: _ =>
      try_except
        (browse max_oldness_seconds maximum_items_to_collect communities)
        (λ e, emit (EvException e))
  | [] => mret ()
  end.

(** The generator object before its first [__anext__]. *)
Definition start (w : W) : frame := Frame w [] 0 ∅.

(** One invocation, driven to its end: the trace and how it ended. *)
Definition run_query (parameters : pyarg) (w : W) : list event * result unit :=
  let '(s, r) := query parameters (start w) in (trace s, r).

End Harvester.

(** ** Concrete worlds, for running the model *)

Module Scenario.

(** A world whose state is the clock (in microseconds): every reading
    advances it by one second, the generator always draws 0, and the
    three endpoints answer as scripted. *)
Definition scripted
    (communities : string → http_outcome communities_json)
    (posts : string → http_outcome posts_json)
    (comments : Z → http_outcome comments_json) : World Z := {|
  randbelow := λ _ w, (0%nat, w);
  utcnow := λ w, (w, w + 1000000);
  get_community_list := λ sort _ w, (communities sort, w);
  get_post_list := λ name _ w, (posts name, w);
  get_comment_list := λ id _ w, (comments id, w);
|}.

(** Timestamps are written as a number of characters: a text of [n]
    characters other than ["naive"] stands for second [n] of the epoch;
    the empty text is malformed. *)
Definition library : Library := {|
  segment := λ s, [s];
  html_text_content := λ s, if bool_decide (s = "") then Raise ParserError else Ok s;
  fromisoformat := λ s,
    if bool_decide (s = "") then BadFormat
    else if bool_decide (s = "naive") then Naive
    else Aware (Z.of_nat (String.length s) * 1000000);
|}.

Definition named (n : string) : community_view :=
  CommunityView (Some (Community (Some n) (Some ("The " +:+ n)))).

(** [n] communities named after their rank. *)
Definition ranked (n : nat) : list community_view :=
  (λ i : nat, named ("c" +:+ pretty i)) <$> seq 0 n.

Definition a_post (id : Z) (published : string) : post_view :=
  PostView (Some (Post (Some id) (Some "https://lemmy.world/post") (Some 7)
                       (Some published) (Some "body") (Some "name"))).

Definition a_comment (id : Z) (published : string) (post_id : Z) : comment_view :=
  CommentView (Some (Comment (Some id) (Some "text") (Some published)
                             (Some "https://lemmy.world/comment") (Some post_id)
                             (Some 8))).

Definition ok {B} (b : B) : http_outcome B := Response 200 (Ok b).

(** Twelve communities; each has the posts 1 and 2, published at seconds
    5 and 3; each post has the comments 11 and 12. *)
Definition busy : World Z :=
  scripted
    (λ _, ok (CommunitiesJson (Some (ranked 12))))
    (λ _, ok (PostsJson (Some [a_post 1 "12345"; a_post 2 "123"])))
    (λ id, ok (CommentsJson (Some [a_comment 11 "1234" id; a_comment 12 "12" id]))).

(** Five communities only. *)
Definition five : World Z :=
  scripted
    (λ _, ok (CommunitiesJson (Some (ranked 5))))
    (λ _, ok (PostsJson (Some [a_post 1 "12345"])))
    (λ _, ok (CommentsJson (Some []))).

(** The request for the list of communities raises [e]; the other
    endpoints answer. *)
Definition community_list_fails (e : exn) : World Z :=
  scripted (λ _, Failed e)
           (λ _, ok (PostsJson (Some [a_post 1 "12345"])))
           (λ _, ok (CommentsJson (Some []))).

(** Every [session.get] raises [e]: [TimeoutError] after [BASE_TIMEOUT]
    seconds, [ClientError] when the connection fails. *)
Definition failing (e : exn) : World Z :=
  scripted (λ _, Failed e) (λ _, Failed e) (λ _, Failed e).

(** Every request is answered with the given status, and a body that is
    not read. *)
Definition answering (status : Z) : World Z :=
  scripted (λ _, Response status (Raise JSONDecodeError))
           (λ _, Response status (Raise JSONDecodeError))
           (λ _, Response status (Raise JSONDecodeError)).

(** The parameters of the repository's test, with a budget of 3. *)
Definition three_items : gmap string pyval :=
  list_to_map [("max_oldness_seconds", PyInt 1200);
               ("maximum_items_to_collect", PyInt 3);
               ("min_post_length", PyInt 10)]%string.

(** The same with a budget of 0. *)
Definition no_items : gmap string pyval :=
  list_to_map [("max_oldness_seconds", PyInt 1200);
               ("maximum_items_to_collect", PyInt 0);
               ("min_post_length", PyInt 10)]%string.

(** The first Item of [busy]: post 1 of community [c0]. *)
Definition first_item : Item :=
  MkItem "c0. bodyname" "12345" "lemmy.world" "name" "https://lemmy.world/post"
         "1" None.

End Scenario.

(** ** The protocol of the generator and the assertions on frames

    [reachable mo mi tr n seen]: the trace [tr], the counter [n] and the
    set [seen] are what a generator with the parameters
    [max_oldness_seconds = mo] and [maximum_items_to_collect = mi] can
    have after the assignments of lines 208 and 214.  Every constructor is
    one kind of step of [query]. *)

Definition quiet (e : event) : Prop :=
  match e with
  | EvGet _ | EvNow _ | EvException _ => True
  | _ => False
  end.

(** The parameters [query] works with, when [read_parameters] returns. *)
Definition max_oldness_of (parameters : pyarg) : pyval :=
  dict_get parameters "max_oldness_seconds" (PyInt DEFAULT_OLDNESS_SECONDS).
Definition maximum_items_of (parameters : pyarg) : pyval :=
  dict_get parameters "maximum_items_to_collect" (PyInt DEFAULT_MAXIMUM_ITEMS).

Section Assertions.
Context {W : Type} {the_world : World W} {the_library : Library}.

(** The text [p] of a timestamp passed the test of freshness against a
    reading of the clock that is on the trace. *)
Definition checked (mo : pyval) (tr : list event) (p : string) : Prop :=
  ∃ t c m, EvNow t ∈ tr ∧ mo = PyInt m ∧
           fromisoformat (replace_Z p) = Aware c ∧ fresh t c m.

(** The comment [cv] passed the test of freshness on the trace [tr]. *)
Definition passed (mo : pyval) (tr : list event) (cv : comment_view) : Prop :=
  ∃ c p, cmv_comment cv = Some c ∧ cm_published c = Some p ∧ checked mo tr p.

Inductive reachable (mo mi : pyval) : list event → Z → gmap Z bool → Prop :=
| reach_start tr :
    Forall quiet tr →
    reachable mo mi tr 0 ∅
| reach_quiet tr n seen e :
    reachable mo mi tr n seen →
    quiet e →
    reachable mo mi (tr ++ [e]) n seen
| reach_budget tr n seen :
    reachable mo mi tr n seen →
    py_ge n mi = Ok true →
    reachable mo mi (tr ++ [EvBudgetReached n mi]) n seen
| reach_post tr t n seen id item c m :
    reachable mo mi (tr ++ [EvNow t]) n seen →
    seen !! id = None →
    py_ge n mi = Ok false →
    external_id item = pretty id →
    external_parent_id item = None →
    mo = PyInt m →
    fromisoformat (replace_Z (created_at item)) = Aware c →
    fresh t c m →
    reachable mo mi ((tr ++ [EvNow t]) ++ [EvYield item]) (n + 1) (<[id := true]> seen)
| reach_comment tr n seen id item parent :
    reachable mo mi tr n seen →
    seen !! id = None →
    py_ge n mi = Ok false →
    external_id item = pretty id →
    external_parent_id item = Some parent →
    checked mo tr (created_at item) →
    reachable mo mi (tr ++ [EvYield item]) (n + 1) (<[id := true]> seen).

(** What stands before a yield on the trace: for an Item made from a
    post, the reading of the clock against which the post was found
    fresh; for an Item made from a comment, such a reading somewhere
    before. *)
Definition fresh_at_yield (mo : pyval) (pre : list event) (i : Item) : Prop :=
  ∃ m c, mo = PyInt m ∧ fromisoformat (replace_Z (created_at i)) = Aware c ∧
    match external_parent_id i with
    | None => ∃ pre' t, pre = pre' ++ [EvNow t] ∧ fresh t c m
    | Some _ => ∃ t, EvNow t ∈ pre ∧ fresh t c m
    end.

(** A trace that the protocol allows. *)
Definition allowed (mo mi : pyval) (tr : list event) : Prop :=
  ∃ n seen, reachable mo mi tr n seen.

(** [spec P m Q E]: from a frame satisfying [P], the action [m] either
    returns [a] in a frame satisfying [Q a], or raises in a frame
    satisfying [E]. *)
Definition spec {A} (P : @frame W → Prop) (m : M A)
    (Q : A → @frame W → Prop) (E : @frame W → Prop) : Prop :=
  ∀ s, P s →
    match m s with
    | (s', Ok a) => Q a s'
    | (s', Raise _) => E s'
    end.

(** [keeps J m]: the action [m] keeps the invariant [J], also when it
    raises. *)
Definition keeps (J : @frame W → Prop) {A} (m : M A) : Prop :=
  spec J m (λ _, J) J.

(** The frame is one the protocol allows. *)
Definition Inv (mo mi : pyval) (s : @frame W) : Prop :=
  reachable mo mi (trace s) (yielded_items s) (id_found s).

(** Nothing but requests, readings of the clock and the handler's log
    has happened. *)
Definition Quiet (s : @frame W) : Prop := Forall quiet (trace s).

(** The frames of [query] before line 214: a quiet trace, and the
    counter at 0. *)
Definition Quiet0 (s : @frame W) : Prop := Quiet s ∧ yielded_items s = 0.

(** What the sentence on small lists asks of the sampler: it returns, and
    returns no more communities than it was given, without duplicates. *)
Definition sampling_succeeds
    (communities : list community_view) (s : @frame W) : Prop :=
  ∃ s' selected,
    select_communities communities s = (s', Ok selected) ∧
    (length selected ≤ length communities)%nat ∧ NoDup selected.

End Assertions.

(** The trace of [Scenario.busy] with a budget of 3, started at second 10. *)
Definition busy_trace : list event :=
  (run_query (the_world := Scenario.busy) (the_library := Scenario.library)
     (ArgDict Scenario.three_items) 10000000).1.


(** ** Further assertions: texts, samples, comments, Items, the halt *)

(** The characters of a text, in order. *)
Definition chars (t : string) : list Ascii.ascii := String.list_ascii_of_string t.

(** [v["community"]["name"]], when both keys are there. *)
Definition name_of (v : community_view) : option string :=
  c ← cv_community v; co_name c.

(** A comment of a response that the loop of [fetch_comments_for_post] can
    test: it has the keys ["comment"] and ["published"], and the timestamp
    parses to an aware datetime. *)
Definition testable {the_library : Library} (cv : comment_view) : Prop :=
  ∃ c p t, cmv_comment cv = Some c ∧ cm_published c = Some p ∧
           fromisoformat (replace_Z p) = Aware t.

(** What every Item of [query] looks like: the fixed domain, a content
    that went through [sanitize_text], the decimal writing of an integer
    id, and for an Item made from a comment the decimal writing of the
    comment's [post_id]. *)
Definition well_formed (i : Item) : Prop :=
  domain i = "lemmy.world"%string ∧
  has_escape (content i) = false ∧
  (∃ id : Z, external_id i = pretty id) ∧
  match external_parent_id i with
  | None => True
  | Some parent => ∃ post_id : Z, parent = pretty post_id
  end.

(** A dict whose keys are distinct and are the names of its values. *)
Definition by_name (d : list (string * community_view)) : Prop :=
  NoDup d.*1 ∧ ∀ k v, (k, v) ∈ d → name_of v = Some k.

(** The communities whose posts were requested along a trace, in order. *)
Fixpoint post_requests (tr : list event) : list string :=
  match tr with
  | [] => []
  | EvGet (PostList name) :: tr' => name :: post_requests tr'
  | _ :: tr' => post_requests tr'
  end.

Definition is_post_request (e : event) : Prop :=
  match e with
  | EvGet (PostList _) => True
  | _ => False
  end.

Definition is_budget (e : event) : Prop :=
  match e with
  | EvBudgetReached _ _ => True
  | _ => False
  end.

Section Halt.
Context {W : Type}.

(** The budget has not been found reached. *)
Definition NoBudget (s : @frame W) : Prop :=
  Forall (λ e, ¬ is_budget e) (trace s).

(** The budget has just been found reached: the log is the last event,
    and the counter is at the budget. *)
Definition Halted (mi : pyval) (s : @frame W) : Prop :=
  (∃ tr n m, trace s = tr ++ [EvBudgetReached n m] ∧
             Forall (λ e, ¬ is_budget e) tr) ∧
  py_ge (yielded_items s) mi = Ok true.

(** Every Item yielded so far satisfies [P]. *)
Definition Yields (P : Item → Prop) (s : @frame W) : Prop :=
  Forall P (yielded (trace s)).

(** What an iteration of one of the three loops leaves: it goes on, the
    budget not found reached, or it breaks. *)
Definition goes_on_or_halts (mi : pyval) (c : ctl) (s : @frame W) : Prop :=
  match c with
  | Next => NoBudget s
  | Break => NoBudget s ∨ Halted mi s
  end.

(** Only the world differs between the two frames. *)
Definition same_locals (s s' : @frame W) : Prop :=
  trace s' = trace s ∧ yielded_items s' = yielded_items s ∧
  id_found s' = id_found s.

(** The posts of the communities [L], and of no other, have been
    requested. *)
Definition Requested (L : list string) (s : @frame W) : Prop :=
  post_requests (trace s) = L.

(** The requests for posts so far are the first of a list of at most 20
    distinct names. *)
Definition Bounded (s : @frame W) : Prop :=
  ∃ names : list string,
    NoDup names ∧ (length names ≤ 20)%nat ∧
    post_requests (trace s) `prefix_of` names.

End Halt.


(** ** Consequences of the protocol *)

Section Protocol.
Context {the_library : Library}.

Lemma yielded_app tr1 tr2 : yielded (tr1 ++ tr2) = yielded tr1 ++ yielded tr2.
Proof.
  induction tr1 as [|e tr1 IH]; [done|].
  destruct e; simpl; by rewrite ?IH.
Qed.

Lemma yielded_quiet tr : Forall quiet tr → yielded tr = [].
Proof.
  induction 1 as [|e tr He _ IH]; [done|]. by destruct e.
Qed.

Lemma yielded_snoc_quiet tr e : quiet e → yielded (tr ++ [e]) = yielded tr.
Proof.
  intros He. rewrite yielded_app. destruct e; simpl in *; try done;
    by rewrite app_nil_r.
Qed.

(** Where the last element of a list stands in a decomposition of it. *)
Lemma snoc_split {A} (l : list A) (e : A) pre x post :
  l ++ [e] = pre ++ x :: post →
  (post = [] ∧ l = pre ∧ e = x) ∨
  (∃ post', post = post' ++ [e] ∧ l = pre ++ x :: post').
Proof.
  destruct post as [|y post _] using rev_ind.
  - intros E. left. apply app_inj_tail in E as [-> ->]. done.
  - intros E. right. exists post.
    replace (pre ++ x :: post ++ [y]) with ((pre ++ x :: post) ++ [y]) in E
      by (by rewrite <- app_assoc).
    apply app_inj_tail in E as [-> ->]. done.
Qed.

Lemma checked_app mo tr tr' p : checked mo tr p → checked mo (tr ++ tr') p.
Proof.
  intros (t & c & m & Hin & ?). exists t, c, m. split; [|done].
  apply elem_of_app. by left.
Qed.

Section Consequences.
Variables mo mi : pyval.

(** The counter counts the yields. *)
Lemma reachable_count tr n seen :
  reachable mo mi tr n seen → Z.of_nat (length (yielded tr)) = n.
Proof.
  induction 1 as [tr Hq| tr n seen e _ IH He | tr n seen _ IH _
                 | tr t n seen id item c m _ IH | tr n seen id item parent _ IH].
  - by rewrite yielded_quiet.
  - by rewrite yielded_snoc_quiet.
  - rewrite yielded_app. simpl. by rewrite app_nil_r.
  - rewrite yielded_app, length_app. simpl. lia.
  - rewrite yielded_app, length_app. simpl. lia.
Qed.

(** The counter never passes an integer budget, and stays at 0 when the
    budget is not positive. *)
Lemma reachable_budget tr n seen N :
  reachable mo mi tr n seen → mi = PyInt N → 0 ≤ n ≤ Z.max 0 N.
Proof.
  intros Hr ->.
  induction Hr as [tr Hq| tr n seen e _ IH He | tr n seen _ IH _
                  | tr t n seen id item c m _ IH _ Hge
                  | tr n seen id item parent _ IH _ Hge]; try lia.
  - simpl in Hge. injection Hge as Hge. apply Z.leb_gt in Hge. lia.
  - simpl in Hge. injection Hge as Hge. apply Z.leb_gt in Hge. lia.
Qed.

(** Every yielded Item carries an id that is in [id_found]. *)
Lemma reachable_seen tr n seen :
  reachable mo mi tr n seen →
  ∀ i, i ∈ yielded tr → ∃ k, external_id i = pretty k ∧ is_Some (seen !! k).
Proof.
  induction 1 as [tr Hq| tr n seen e _ IH He | tr n seen _ IH _
                 | tr t n seen id item c m _ IH Hnew _ Hid
                 | tr n seen id item parent _ IH Hnew _ Hid]; intros i Hi.
  - rewrite yielded_quiet in Hi by done. by apply elem_of_nil in Hi.
  - rewrite yielded_snoc_quiet in Hi by done. auto.
  - rewrite yielded_app in Hi. simpl in Hi. rewrite app_nil_r in Hi. auto.
  - rewrite yielded_app in Hi. simpl in Hi.
    apply elem_of_app in Hi as [Hi|Hi].
    + destruct (IH i Hi) as (k & Hk & Hs). exists k. split; [done|].
      rewrite lookup_insert. case_decide; [by eexists|done].
    + apply list_elem_of_singleton in Hi as ->. exists id. split; [done|].
      rewrite lookup_insert_eq. by eexists.
  - rewrite yielded_app in Hi. simpl in Hi.
    apply elem_of_app in Hi as [Hi|Hi].
    + destruct (IH i Hi) as (k & Hk & Hs). exists k. split; [done|].
      rewrite lookup_insert. case_decide; [by eexists|done].
    + apply list_elem_of_singleton in Hi as ->. exists id. split; [done|].
      rewrite lookup_insert_eq. by eexists.
Qed.

(** A fresh id gives an [external_id] that no yielded Item has. *)
Lemma reachable_new_id tr n seen id :
  reachable mo mi tr n seen → seen !! id = None →
  pretty id ∉ external_id <$> yielded tr.
Proof.
  intros Hr Hnew Hin. apply list_elem_of_fmap in Hin as (i & Heq & Hi).
  destruct (reachable_seen _ _ _ Hr i Hi) as (k & Hk & [b Hs]).
  rewrite Hk in Heq. apply (inj pretty) in Heq as ->. congruence.
Qed.

(** The [external_id]s of the yielded Items are pairwise distinct. *)
Lemma reachable_nodup tr n seen :
  reachable mo mi tr n seen → NoDup (external_id <$> yielded tr).
Proof.
  induction 1 as [tr Hq| tr n seen e _ IH He | tr n seen _ IH _
                 | tr t n seen id item c m Hr IH Hnew _ Hid
                 | tr n seen id item parent Hr IH Hnew _ Hid].
  - rewrite yielded_quiet by done. constructor.
  - by rewrite yielded_snoc_quiet.
  - rewrite yielded_app. simpl. by rewrite app_nil_r.
  - rewrite yielded_app, fmap_app. simpl. apply NoDup_app. split; [done|].
    split; [|apply NoDup_singleton].
    intros x Hx Hx'. apply list_elem_of_singleton in Hx' as ->.
    rewrite Hid in Hx. by eapply reachable_new_id.
  - rewrite yielded_app, fmap_app. simpl. apply NoDup_app. split; [done|].
    split; [|apply NoDup_singleton].
    intros x Hx Hx'. apply list_elem_of_singleton in Hx' as ->.
    rewrite Hid in Hx. by eapply reachable_new_id.
Qed.

(** Once "Maximum items to collect reached" is logged, the counter has
    reached the budget and nothing is yielded any more. *)
Lemma reachable_stop tr n seen pre y m post :
  reachable mo mi tr n seen →
  tr = pre ++ EvBudgetReached y m :: post →
  yielded post = [] ∧ y = n ∧ m = mi ∧ py_ge n mi = Ok true.
Proof.
  intros Hr. revert post.
  induction Hr as [tr Hq| tr n seen e _ IH He | tr n seen _ IH Hge
                  | tr t n seen id item c m' _ IH _ Hge
                  | tr n seen id item parent _ IH _ Hge]; intros post E.
  - subst tr. apply Forall_app in Hq as [_ Hq].
    apply Forall_cons in Hq as [[] _].
  - apply snoc_split in E as [(-> & -> & ->)|(post' & -> & ->)]; [done|].
    destruct (IH post' eq_refl) as (Hy & ? & ? & ?).
    by rewrite yielded_snoc_quiet, Hy.
  - apply snoc_split in E as [(-> & -> & E)|(post' & -> & ->)].
    + by injection E as <- <-.
    + destruct (IH post' eq_refl) as (Hy & ? & ? & ?).
      rewrite yielded_app, Hy. done.
  - apply snoc_split in E as [(-> & _ & ?)|(post' & -> & E)]; [done|].
    destruct (IH post' E) as (_ & _ & _ & Hge'). congruence.
  - apply snoc_split in E as [(-> & _ & ?)|(post' & -> & ->)]; [done|].
    destruct (IH post' eq_refl) as (_ & _ & _ & Hge'). congruence.
Qed.

Lemma reachable_fresh tr n seen pre i post :
  reachable mo mi tr n seen →
  tr = pre ++ EvYield i :: post →
  fresh_at_yield mo pre i.
Proof.
  intros Hr. revert post.
  induction Hr as [tr Hq| tr n seen e _ IH He | tr n seen _ IH Hge
                  | tr t n seen id item c m' _ IH _ _ _ Hpar Hmo Hc Hf
                  | tr n seen id item parent _ IH _ _ _ Hpar Hck]; intros post E.
  - subst tr. apply Forall_app in Hq as [_ Hq].
    apply Forall_cons in Hq as [[] _].
  - apply snoc_split in E as [(-> & -> & ->)|(post' & -> & ->)]; [done|].
    by eapply IH.
  - apply snoc_split in E as [(-> & -> & ?)|(post' & -> & ->)]; [done|].
    by eapply IH.
  - apply snoc_split in E as [(-> & <- & E)|(post' & -> & E)].
    + injection E as <-. exists m', c. rewrite Hpar. eauto 10.
    + by eapply IH.
  - apply snoc_split in E as [(-> & <- & E)|(post' & -> & ->)].
    + injection E as <-. destruct Hck as (t & c & m' & ? & ? & ? & ?).
      exists m', c. rewrite Hpar. eauto 10.
    + by eapply IH.
Qed.

End Consequences.
End Protocol.

(** ** Reasoning about actions of [M] *)

Create HintDb keeps.

Section Logic.
Context {W : Type} {the_world : World W} {the_library : Library}.

Lemma spec_ret {A} (a : A) (P : @frame W → Prop) Q E :
  (∀ s, P s → Q a s) → spec P (mret a) Q E.
Proof. intros H s Hs. by apply H. Qed.

Lemma spec_bind {A B} (m : M A) (k : A → M B) (P : @frame W → Prop) Q R E :
  spec P m Q E → (∀ a, spec (Q a) (k a) R E) → spec P (m ≫= k) R E.
Proof.
  intros Hm Hk s Hs. specialize (Hm s Hs).
  unfold mbind, M_bind. destruct (m s) as [s' [a|e]]; [|done].
  by apply Hk.
Qed.

Lemma spec_weaken {A} (m : M A) (P P' : @frame W → Prop) Q Q' E E' :
  spec P' m Q' E' →
  (∀ s, P s → P' s) → (∀ a s, Q' a s → Q a s) → (∀ s, E' s → E s) →
  spec P m Q E.
Proof.
  intros Hm HP HQ HE s Hs. specialize (Hm s (HP s Hs)).
  destruct (m s) as [s' [a|e]]; auto.
Qed.

(** Steps that leave the frame as it is move what they establish to the
    context. *)
Lemma spec_lift {A B} (r : result A) (k : A → M B) (P : @frame W → Prop) Q E :
  (∀ s, P s → E s) →
  (∀ a, r = Ok a → spec P (k a) Q E) →
  spec P (lift r ≫= k) Q E.
Proof.
  intros HE Hk s Hs. unfold mbind, M_bind, lift.
  destruct r as [a|e]; [by apply Hk | by apply HE].
Qed.

Lemma spec_getitem {A B} (o : option A) (k : A → M B) (P : @frame W → Prop) Q E :
  (∀ s, P s → E s) →
  (∀ a, o = Some a → spec P (k a) Q E) →
  spec P (getitem o ≫= k) Q E.
Proof.
  intros HE Hk s Hs. unfold mbind, M_bind.
  destruct o as [a|]; simpl; [by apply Hk | by apply HE].
Qed.

Lemma spec_parse_published {B} (p : string) (k : parsed_datetime → M B)
    (P : @frame W → Prop) Q E :
  (∀ s, P s → E s) →
  (∀ d, fromisoformat (replace_Z p) = d → d ≠ BadFormat → spec P (k d) Q E) →
  spec P (parse_published p ≫= k) Q E.
Proof.
  intros HE Hk s Hs. unfold mbind, M_bind, parse_published.
  destruct (fromisoformat (replace_Z p)) eqn:Hd; simpl;
    [by apply HE | by apply (Hk Naive) | by apply (Hk (Aware t))].
Qed.

Lemma spec_get_yielded_items {B} (k : Z → M B) (P : @frame W → Prop) Q E :
  (∀ n, spec (λ s, P s ∧ yielded_items s = n) (k n) Q E) →
  spec P (get_yielded_items ≫= k) Q E.
Proof. intros Hk s Hs. unfold mbind, M_bind. simpl. by apply Hk. Qed.

Lemma spec_get_id_found {B} (k : gmap Z bool → M B) (P : @frame W → Prop) Q E :
  (∀ seen, spec (λ s, P s ∧ id_found s = seen) (k seen) Q E) →
  spec P (get_id_found ≫= k) Q E.
Proof. intros Hk s Hs. unfold mbind, M_bind. simpl. by apply Hk. Qed.

(** A loop whose invariant [K] is indexed by what is left to visit. *)
Lemma spec_for_each {A} (body : A → M ctl) (K : list A → @frame W → Prop) Q E l :
  (∀ x rest, spec (K (x :: rest)) (body x) (λ _, K rest) E) →
  (∀ rest s, K rest s → Q s) →
  spec (K l) (for_each body l) (λ _, Q) E.
Proof.
  intros Hbody HQ. induction l as [|x l IH]; simpl.
  - apply spec_ret. apply HQ.
  - eapply spec_bind; [apply Hbody|]. intros [|]; [apply IH|].
    apply spec_ret. apply HQ.
Qed.

Lemma spec_try_except (body : M unit) (handler : exn → M unit)
    (P : @frame W → Prop) Q E E' :
  spec P body Q E' → (∀ e, spec E' (handler e) Q E) →
  spec P (try_except body handler) Q E.
Proof.
  intros Hb Hh s Hs. specialize (Hb s Hs). unfold try_except.
  destruct (body s) as [s' [[]|e]]; [done|]. by apply Hh.
Qed.

(** *** Invariants that the quiet steps keep

    [J] does not depend on the world and is kept when a request, a
    reading of the clock or the log of the handler is added to the trace:
    then every action that neither yields nor touches the counter and
    [id_found] keeps it. *)
Section Stable.
Variable J : @frame W → Prop.
Hypothesis J_world : ∀ w tr n seen w',
  J (Frame w tr n seen) → J (Frame w' tr n seen).
Hypothesis J_quiet : ∀ w tr n seen e,
  quiet e → J (Frame w tr n seen) → J (Frame w (tr ++ [e]) n seen).

Local Abbreviation keeps := (keeps J).

Lemma keeps_ret {A} (a : A) : keeps (mret a).
Proof. by apply spec_ret. Qed.

Lemma keeps_bind {A B} (m : M A) (k : A → M B) :
  keeps m → (∀ a, keeps (k a)) → keeps (m ≫= k).
Proof. intros. by eapply spec_bind. Qed.

Lemma keeps_lift {A} (r : result A) : keeps (lift r).
Proof. intros s Hs. unfold lift. by destruct r. Qed.

Lemma keeps_raise {A} e : keeps (raise (A:=A) e).
Proof. apply keeps_lift. Qed.

Lemma keeps_getitem {A} (o : option A) : keeps (getitem o).
Proof. intros s Hs. by destruct o. Qed.

Lemma keeps_io {A} (op : W → A * W) : keeps (io op).
Proof.
  intros [w tr n seen] Hs. unfold io. simpl.
  destruct (op w) as [a w']. by eapply J_world.
Qed.

Lemma keeps_emit e : quiet e → keeps (emit e).
Proof. intros He [w tr n seen] Hs. simpl. by apply J_quiet. Qed.

Lemma keeps_get_yielded_items : keeps get_yielded_items.
Proof. by intros s Hs. Qed.

Hint Resolve keeps_ret keeps_lift keeps_raise keeps_getitem keeps_io
  keeps_get_yielded_items : keeps.

(** One step through an action built from the monad's operations. *)
Ltac keeps_step :=
  lazymatch goal with
  | |- keeps (mbind _ _) => apply keeps_bind; [|intros ?]
  | |- keeps (emit _) => apply keeps_emit; exact I
  | |- keeps (match ?x with _ => _ end) => destruct x
  | |- keeps _ => solve [eauto with keeps]
  end.
Ltac keeps_auto := repeat keeps_step.

Lemma keeps_now : keeps now.
Proof. unfold now. keeps_auto. Qed.

Lemma keeps_parse_published p : keeps (parse_published p).
Proof. unfold parse_published. keeps_auto. Qed.

Lemma keeps_random_choice {A} (seq : list A) : keeps (random_choice seq).
Proof. unfold random_choice. keeps_auto. Qed.

Lemma keeps_draw {A} (pool : list A) k : keeps (draw pool k).
Proof.
  revert pool. induction k as [|k IH]; intros pool; simpl; keeps_auto.
Qed.

Lemma keeps_random_sample {A} (population : list A) k :
  keeps (random_sample population k).
Proof. unfold random_sample. pose proof (keeps_draw population k). keeps_auto. Qed.

Hint Resolve keeps_now keeps_parse_published keeps_random_choice
  keeps_random_sample : keeps.

Lemma keeps_fetch_communities sort : keeps (fetch_communities sort).
Proof. unfold fetch_communities. keeps_auto. Qed.

Lemma keeps_fetch_new_posts_from_community name :
  keeps (fetch_new_posts_from_community name).
Proof. unfold fetch_new_posts_from_community. keeps_auto. Qed.

Lemma keeps_keep_fresh mo comments acc : keeps (keep_fresh mo comments acc).
Proof.
  revert acc. induction comments as [|c comments IH]; intros acc; simpl;
    keeps_auto.
Qed.

Hint Resolve keeps_keep_fresh : keeps.

Lemma keeps_fetch_comments_for_post id mo : keeps (fetch_comments_for_post id mo).
Proof. unfold fetch_comments_for_post. keeps_auto. Qed.

Lemma keeps_dict_by_name l d : keeps (dict_by_name l d).
Proof.
  revert d. induction l as [|v l IH]; intros d; simpl; keeps_auto.
Qed.

Lemma keeps_titles_of l : keeps (titles_of l).
Proof. induction l as [|v l IH]; simpl; keeps_auto. Qed.

Hint Resolve keeps_dict_by_name keeps_titles_of : keeps.

Lemma keeps_select_communities communities :
  keeps (select_communities communities).
Proof. unfold select_communities. keeps_auto. Qed.

Lemma keeps_break_if_reached mi : keeps (break_if_reached mi).
Proof. unfold break_if_reached. keeps_auto. Qed.

End Stable.
End Logic.

(** ** Every frame of [query] is reachable *)

Section Simulation.
Context {W : Type} {the_world : World W} {the_library : Library}.
Variables mo mi : pyval.

Local Abbreviation Inv := (Inv (W:=W) mo mi).
Local Abbreviation Quiet := (Quiet (W:=W)).
Local Abbreviation Quiet0 := (Quiet0 (W:=W)).
Local Abbreviation passed := (passed mo).
Local Abbreviation allowed := (allowed mo mi).

Lemma Inv_world w tr n seen w' :
  Inv (Frame w tr n seen) → Inv (Frame w' tr n seen).
Proof. done. Qed.

Lemma Inv_quiet w tr n seen e :
  quiet e → Inv (Frame w tr n seen) → Inv (Frame w (tr ++ [e]) n seen).
Proof. intros He Hs. by apply reach_quiet. Qed.

Lemma Quiet_world w tr n seen w' :
  Quiet (Frame w tr n seen) → Quiet (Frame w' tr n seen).
Proof. done. Qed.

Lemma Quiet_quiet w tr n seen e :
  quiet e → Quiet (Frame w tr n seen) → Quiet (Frame w (tr ++ [e]) n seen).
Proof.
  unfold Quiet. simpl. intros He Hs. apply Forall_app. split; [done|].
  by apply Forall_singleton.
Qed.

Lemma passed_app tr tr' cv : passed tr cv → passed (tr ++ tr') cv.
Proof.
  intros (c & p & Hc & Hp & Hck). exists c, p.
  split; [done|]. split; [done|]. by apply checked_app.
Qed.

Lemma Forall_passed_app tr tr' l :
  Forall (passed tr) l → Forall (passed (tr ++ tr')) l.
Proof. intros Hl. eapply Forall_impl; [done|]. intros cv. apply passed_app. Qed.

(** [now] adds its reading to the trace. *)
Lemma spec_now {B} (k : Z → M B) (P : @frame W → Prop) Q E :
  (∀ t, spec (λ s, ∃ w tr n seen w',
             P (Frame w tr n seen) ∧ s = Frame w' (tr ++ [EvNow t]) n seen)
          (k t) Q E) →
  spec P (now ≫= k) Q E.
Proof.
  intros Hk [w tr n seen] Hs. unfold now, io, emit, mbind, M_bind. simpl.
  destruct (utcnow w) as [t w']. simpl. apply (Hk t). eauto 10.
Qed.

(** What the comparison with [timedelta(seconds=mo)] says. *)
Lemma fresh_of_test t d age limit :
  datetime_sub t d = Ok age → timedelta mo = Ok limit → age < limit →
  ∃ c m, d = Aware c ∧ mo = PyInt m ∧ fresh t c m.
Proof.
  intros Hage Hlimit Hlt. destruct d as [| |c]; try done.
  destruct mo as [m| |]; try done. simpl in *.
  case_bool_decide; [|done]. injection Hage as <-. injection Hlimit as <-.
  by exists c, m.
Qed.

(** *** The Remote Client's comment listing keeps the fresh comments

    [K acc] is a family of assertions indexed by the comments kept so far:
    it does not depend on the world, survives quiet events, and takes in a
    comment that has just passed the test against the reading [t]. *)

Section KeepFresh.
Variable K : list comment_view → @frame W → Prop.
Hypothesis K_world : ∀ acc w tr n seen w',
  K acc (Frame w tr n seen) → K acc (Frame w' tr n seen).
Hypothesis K_quiet : ∀ acc w tr n seen e,
  quiet e → K acc (Frame w tr n seen) → K acc (Frame w (tr ++ [e]) n seen).
Hypothesis K_keep : ∀ acc cv c p t ts m w tr n seen,
  cmv_comment cv = Some c → cm_published c = Some p →
  mo = PyInt m → fromisoformat (replace_Z p) = Aware ts → fresh t ts m →
  K acc (Frame w tr n seen) →
  K (acc ++ [cv]) (Frame w (tr ++ [EvNow t]) n seen).

Lemma keep_fresh_spec comments acc :
  spec (K acc) (keep_fresh mo comments acc) K (λ s, ∃ acc', K acc' s).
Proof.
  assert (∀ acc t (s : @frame W),
            (∃ w tr n seen w',
               K acc (Frame w tr n seen) ∧ s = Frame w' (tr ++ [EvNow t]) n seen) →
            K acc s) as Hnow.
  { intros acc' t s (w & tr & n & seen & w' & Hk & ->).
    apply K_quiet; [done|]. by eapply K_world. }
  revert acc. induction comments as [|cv comments IH]; intros acc; simpl.
  { by apply spec_ret. }
  apply spec_getitem; [by eauto|]. intros c Hc.
  apply spec_getitem; [by eauto|]. intros p Hp.
  apply spec_parse_published; [by eauto|]. intros d Hd _.
  apply spec_now. intros t.
  apply spec_lift; [by eauto|]. intros age Hage.
  apply spec_lift; [by eauto|]. intros limit Hlimit.
  case_bool_decide as Hlt.
  - eapply spec_weaken; [apply (IH (acc ++ [cv]))| |done|done].
    intros s (w & tr & n & seen & w' & Hk & ->).
    destruct (fresh_of_test _ _ _ _ Hage Hlimit Hlt) as (ts & m & -> & Hm & Hf).
    eapply K_world. by eapply K_keep.
  - eapply spec_weaken; [apply (IH acc)| |done|done]. by eauto.
Qed.

Lemma fetch_comments_for_post_spec id :
  spec (K []) (fetch_comments_for_post id mo)
       (λ r s, match r with Some l => K l s | None => K [] s end)
       (λ s, ∃ acc, K acc s).
Proof.
  unfold fetch_comments_for_post.
  eapply spec_bind with (Q := λ _, K []).
  { eapply spec_weaken;
      [eapply keeps_random_choice; apply K_world|done|done|by eauto]. }
  intros ua.
  eapply spec_bind with (Q := λ _, K []).
  { eapply spec_weaken;
      [by eapply keeps_emit; [apply K_quiet|]|done|done|by eauto]. }
  intros [].
  eapply spec_bind with (Q := λ _, K []).
  { eapply spec_weaken; [eapply keeps_io; apply K_world|done|done|by eauto]. }
  intros [status json|e]; [|intros s Hs; simpl; by eauto].
  case_bool_decide; [|by apply spec_ret].
  apply spec_lift; [by eauto|]. intros data _.
  eapply spec_bind; [apply keep_fresh_spec|].
  intros l. by apply spec_ret.
Qed.

End KeepFresh.

Lemma fetch_comments_for_post_passed id :
  spec Inv (fetch_comments_for_post id mo)
       (λ r s, Inv s ∧ ∀ l, r = Some l → Forall (passed (trace s)) l)
       Inv.
Proof.
  eapply spec_weaken;
    [apply (fetch_comments_for_post_spec
              (λ acc s, Inv s ∧ Forall (passed (trace s)) acc)) | | |].
  - intros acc w tr n seen w' [Hi Hacc]. done.
  - intros acc w tr n seen e He [Hi Hacc]. split; [by apply Inv_quiet|].
    by apply Forall_passed_app.
  - intros acc cv c p t ts m w tr n seen Hc Hp Hm Hts Hf [Hi Hacc]. split.
    + by apply Inv_quiet.
    + simpl in *. apply Forall_app. split; [by apply Forall_passed_app|].
      apply Forall_singleton. exists c, p. split; [done|]. split; [done|].
      exists t, ts, m. split; [apply elem_of_app; right; by left|done].
  - intros s Hs. split; [done|constructor].
  - intros [l|] s [Hi Hl]; (split; [done|]); [by intros ? [= <-] | done].
  - by intros s [acc [Hi _]].
Qed.

(** *** The candidate, the three loops and [query] *)

Lemma after_now t (s : @frame W) :
  (∃ w tr n seen w',
     Inv (Frame w tr n seen) ∧ s = Frame w' (tr ++ [EvNow t]) n seen) →
  Inv s ∧ ∃ tr, trace s = tr ++ [EvNow t].
Proof.
  intros (w & tr & n & seen & w' & Hi & ->). split; [|by eexists].
  apply Inv_quiet; [done|]. by eapply Inv_world.
Qed.

Lemma candidate_post t id item c m :
  external_id item = pretty id →
  external_parent_id item = None →
  mo = PyInt m →
  fromisoformat (replace_Z (created_at item)) = Aware c →
  fresh t c m →
  spec (λ s, Inv s ∧ ∃ tr, trace s = tr ++ [EvNow t])
       (candidate mi id item) (λ _, Inv) Inv.
Proof.
  intros Hid Hpar Hmo Hc Hf [w tr n seen] [Hi [tr0 Htr]].
  simpl in Htr. subst tr.
  unfold candidate, get_id_found, get_yielded_items, set_yielded_items,
    set_id_found, emit, lift, mbind, M_bind. simpl.
  destruct (seen !! id) eqn:Hseen; simpl; [done|].
  destruct (py_ge n mi) as [[|]|e] eqn:Hge; simpl; [|  |done].
  - by apply reach_budget.
  - by eapply reach_post.
Qed.

Lemma candidate_comment id item parent rest :
  external_id item = pretty id →
  external_parent_id item = Some parent →
  spec (λ s, Inv s ∧ checked mo (trace s) (created_at item) ∧
             Forall (passed (trace s)) rest)
       (candidate mi id item)
       (λ _ s, Inv s ∧ Forall (passed (trace s)) rest) Inv.
Proof.
  intros Hid Hpar [w tr n seen] (Hi & Hck & Hrest). simpl in *.
  unfold candidate, get_id_found, get_yielded_items, set_yielded_items,
    set_id_found, emit, lift, mbind, M_bind. simpl.
  destruct (seen !! id) eqn:Hseen; simpl; [done|].
  destruct (py_ge n mi) as [[|]|e] eqn:Hge; simpl; [|  |done].
  - split; [by apply reach_budget | by apply Forall_passed_app].
  - split; [by eapply reach_comment | by apply Forall_passed_app].
Qed.

Lemma comment_iteration_inv post_title cv rest :
  spec (λ s, Inv s ∧ Forall (passed (trace s)) (cv :: rest))
       (comment_iteration mi post_title cv)
       (λ _ s, Inv s ∧ Forall (passed (trace s)) rest) Inv.
Proof.
  unfold comment_iteration.
  apply spec_getitem; [by intros ? [? ?]|]. intros c Hc.
  apply spec_getitem; [by intros ? [? ?]|]. intros comment_id _.
  apply spec_getitem; [by intros ? [? ?]|]. intros comment_text _.
  apply spec_getitem; [by intros ? [? ?]|]. intros comment_date Hdate.
  apply spec_getitem; [by intros ? [? ?]|]. intros comment_url _.
  apply spec_getitem; [by intros ? [? ?]|]. intros comment_parent_id _.
  apply spec_getitem; [by intros ? [? ?]|]. intros author_id _.
  eapply spec_weaken;
    [by eapply (candidate_comment comment_id _ (pretty comment_parent_id) rest)
    | |done|done].
  intros s [Hi Hall]. apply Forall_cons in Hall as [Hcv Hrest].
  split; [done|]. split; [|done].
  destruct Hcv as (c' & p' & Hc' & Hp' & Hck).
  assert (c' = c) as -> by congruence.
  assert (p' = comment_date) as -> by congruence. done.
Qed.

Lemma post_iteration_inv segmented_community_name pv :
  spec Inv (post_iteration mo mi segmented_community_name pv) (λ _, Inv) Inv.
Proof.
  unfold post_iteration.
  apply spec_getitem; [done|]. intros post _.
  apply spec_getitem; [done|]. intros post_id _.
  apply spec_getitem; [done|]. intros post_url _.
  apply spec_getitem; [done|]. intros post_author_id _.
  apply spec_getitem; [done|]. intros post_date _.
  cbv zeta.
  destruct (match po_name post with
            | Some name => _
            | None => _
            end) as [post_title post_content].
  apply spec_lift; [done|]. intros content _.
  apply spec_now. intros t.
  apply spec_parse_published; [by intros s [? _]%after_now|]. intros d Hd _.
  apply spec_lift; [by intros s [? _]%after_now|]. intros age Hage.
  apply spec_lift; [by intros s [? _]%after_now|]. intros limit Hlimit.
  eapply spec_bind with (Q := λ _, Inv).
  - case_bool_decide as Hlt.
    + destruct (fresh_of_test _ _ _ _ Hage Hlimit Hlt) as (c & m & -> & Hm & Hf).
      eapply spec_weaken;
        [by eapply (candidate_post t post_id _ c m)| |done|done].
      intros s Hs. by apply after_now.
    + apply spec_ret. by intros s [? _]%after_now.
  - intros [|]; [|by apply spec_ret].
    eapply spec_bind; [apply fetch_comments_for_post_passed|]. intros comments.
    eapply spec_bind with (Q := λ _, Inv).
    + destruct comments as [[|cv l]|]; [by apply spec_ret; intros s [? _]|
                                        |by apply spec_ret; intros s [? _]].
      eapply spec_weaken;
        [apply (spec_for_each _ (λ rest s, Inv s ∧ Forall (passed (trace s)) rest)
                  Inv Inv)
        | |done|done].
      * intros x rest. apply comment_iteration_inv.
      * by intros rest s [? _].
      * intros s [Hi Hl]. split; [done|]. by apply Hl.
    + intros []. apply (keeps_break_if_reached Inv).
Qed.

Lemma community_iteration_inv cv :
  spec Inv (community_iteration mo mi cv) (λ _, Inv) Inv.
Proof.
  unfold community_iteration.
  apply spec_getitem; [done|]. intros c _.
  apply spec_getitem; [done|]. intros name _.
  eapply spec_bind;
    [eapply keeps_fetch_new_posts_from_community;
       first [exact Inv_world | exact Inv_quiet]|].
  intros posts. cbv zeta.
  eapply spec_bind with (Q := λ _, Inv).
  - destruct posts as [[[posts|]]|]; try by apply spec_ret.
    apply (spec_for_each _ (λ _, Inv) Inv Inv); [|done].
    intros x rest. apply post_iteration_inv.
  - intros []. apply (keeps_break_if_reached Inv).
Qed.

Lemma browse_inv communities :
  spec Inv (browse mo mi communities) (λ _, Inv) Inv.
Proof.
  unfold browse.
  eapply spec_bind;
    [eapply keeps_select_communities; first [exact Inv_world | exact Inv_quiet]|].
  intros selected.
  eapply spec_bind; [apply (keeps_titles_of Inv)|]. intros titles. cbv zeta.
  apply (spec_for_each _ (λ _, Inv) Inv Inv); [|done].
  intros x rest. apply community_iteration_inv.
Qed.

Lemma Quiet0_world w tr n seen w' :
  Quiet0 (Frame w tr n seen) → Quiet0 (Frame w' tr n seen).
Proof. done. Qed.

Lemma Quiet0_quiet w tr n seen e :
  quiet e → Quiet0 (Frame w tr n seen) → Quiet0 (Frame w (tr ++ [e]) n seen).
Proof. intros He [Hq Hn]. split; [by apply Quiet_quiet | done]. Qed.

Lemma query_allowed parameters :
  (∀ a b c, read_parameters parameters = Ok (a, b, c) → a = mo ∧ b = mi) →
  spec (λ s, trace s = []) (query parameters)
       (λ _ s, allowed (trace s)) (λ s, allowed (trace s)).
Proof.
  intros Hparams. unfold query.
  assert (∀ s : @frame W, Quiet s → allowed (trace s)) as Hq.
  { intros s Hs. exists 0, ∅. by apply reach_start. }
  assert (∀ s : @frame W, Inv s → allowed (trace s)) as Hi.
  { intros s Hs. by eexists _, _. }
  apply spec_lift.
  { intros s Hs. apply Hq. unfold Quiet. rewrite Hs. constructor. }
  intros [[a b] c] Hread. destruct (Hparams _ _ _ Hread) as [-> ->].
  eapply spec_bind with (Q := λ _, Quiet0).
  { intros [w tr n seen] Hs. simpl in *. subst tr. split; [constructor|done]. }
  intros [].
  eapply spec_bind with (Q := λ _, Quiet0).
  { eapply spec_weaken;
      [eapply keeps_random_choice; exact Quiet0_world|done|done|].
    intros s [? _]. auto. }
  intros selected_sort.
  eapply spec_bind with (Q := λ _, Quiet0).
  { eapply spec_weaken;
      [eapply keeps_fetch_communities;
         first [exact Quiet0_world | exact Quiet0_quiet]
      |done|done|].
    intros s [? _]. auto. }
  intros communities.
  eapply spec_bind with (Q := λ _, Inv).
  { intros [w tr n seen] [Hs Hn]. simpl in *. subst n. by apply reach_start. }
  intros [].
  eapply spec_weaken with (P' := Inv) (Q' := λ _, Inv) (E' := Inv);
    [|done|auto|auto].
  destruct communities as [|cv communities]; [by apply spec_ret|].
  eapply spec_try_except; [apply browse_inv|].
  intros e. by apply (keeps_emit Inv Inv_quiet).
Qed.

End Simulation.

(** ** The properties of the harvester *)

Lemma read_parameters_returns parameters a b c :
  read_parameters parameters = Ok (a, b, c) →
  a = max_oldness_of parameters ∧ b = maximum_items_of parameters.
Proof.
  unfold read_parameters.
  destruct (truthy_arg parameters && isinstance_dict parameters); simpl; [|done].
  by intros [= <- <- <-].
Qed.

Section Claims.
Context {W : Type} {the_world : World W} {the_library : Library}.

(** Every trace of [query] is one the protocol allows. *)
Lemma run_query_allowed parameters (w : W) :
  allowed (max_oldness_of parameters) (maximum_items_of parameters)
          (run_query parameters w).1.
Proof.
  unfold run_query.
  pose proof (query_allowed (max_oldness_of parameters)
                (maximum_items_of parameters) parameters
                (read_parameters_returns parameters) (start w) eq_refl) as H.
  by destruct (query parameters (start w)) as [s [[]|e]].
Qed.

(** C1. With [maximum_items_to_collect = N] and [N] not negative, one
    invocation yields at most [N] Items; and when the budget is found
    reached before a candidate (the log "Maximum items to collect
    reached", in the loop over the posts or over the comments), exactly [N]
    Items have been yielded and none is yielded afterwards. *)
Theorem query_respects_budget (d : gmap string pyval) (N : Z) (w : W) :
  d !! "maximum_items_to_collect" = Some (PyInt N) →
  0 ≤ N →
  Z.of_nat (length (yielded (run_query (ArgDict d) w).1)) ≤ N ∧
  ∀ pre n m post,
    (run_query (ArgDict d) w).1 = pre ++ EvBudgetReached n m :: post →
    Z.of_nat (length (yielded pre)) = N ∧ yielded post = [].
Proof.
  intros Hd HN.
  destruct (run_query_allowed (ArgDict d) w) as (k & seen & Hr).
  assert (maximum_items_of (ArgDict d) = PyInt N) as Hmi.
  { unfold maximum_items_of. simpl. by rewrite Hd. }
  pose proof (reachable_count _ _ _ _ _ Hr) as Hcount.
  pose proof (reachable_budget _ _ _ _ _ N Hr Hmi) as Hle.
  split; [lia|].
  intros pre n m post E.
  destruct (reachable_stop _ _ _ _ _ _ _ _ _ Hr E) as (Hpost & -> & _ & Hge).
  split; [|done].
  rewrite Hmi in Hge. simpl in Hge. injection Hge as Hge. apply Z.leb_le in Hge.
  rewrite E, yielded_app in Hcount. simpl in Hcount.
  rewrite Hpost, app_nil_r in Hcount. lia.
Qed.

(** C2. In one invocation the [external_id]s of the yielded Items are
    pairwise distinct: an Item is never followed by an Item with the same
    [external_id], whatever post, comment or community it comes from; and
    a candidate whose id is already in [id_found] leaves the frame as it
    is, without a yield. *)
Theorem query_external_ids_distinct (parameters : pyarg) (w : W) :
  NoDup (external_id <$> yielded (run_query parameters w).1) ∧
  (∀ pre i post,
     yielded (run_query parameters w).1 = pre ++ i :: post →
     external_id i ∉ external_id <$> post) ∧
  (∀ mi id item (s : @frame W),
     is_Some (id_found s !! id) → candidate mi id item s = (s, Ok Next)).
Proof.
  destruct (run_query_allowed parameters w) as (k & seen & Hr).
  pose proof (reachable_nodup _ _ _ _ _ Hr) as Hnd.
  split; [done|]. split.
  - intros pre i post E. rewrite E, fmap_app, fmap_cons in Hnd.
    apply NoDup_app in Hnd as (_ & _ & Hnd). by apply NoDup_cons in Hnd as [? _].
  - intros mi id item s [b Hb].
    unfold candidate, get_id_found, mbind, M_bind. simpl. by rewrite Hb.
Qed.

(** C3. Before the yield of an Item made from a post stands the reading
    [t] of the clock taken for that post, and [t - created_at] is less
    than [max_oldness_seconds]; an Item made from a comment was found
    fresh against a reading taken earlier in the invocation.  And every
    comment that [fetch_comments_for_post post_id mo] returns passed the
    same test, with [mo], against a reading taken during that call. *)
Theorem query_yields_fresh (parameters : pyarg) (w : W) :
  (∀ pre i post,
     (run_query parameters w).1 = pre ++ EvYield i :: post →
     fresh_at_yield (max_oldness_of parameters) pre i) ∧
  (∀ post_id mo (s s' : @frame W) l,
     fetch_comments_for_post post_id mo s = (s', Ok (Some l)) →
     ∃ ext, trace s' = trace s ++ ext ∧ Forall (passed mo ext) l).
Proof.
  split.
  - intros pre i post E.
    destruct (run_query_allowed parameters w) as (k & seen & Hr).
    by eapply reachable_fresh.
  - intros post_id mo s s' l E.
    pose proof (fetch_comments_for_post_spec mo
      (λ acc s1, ∃ ext, trace s1 = trace s ++ ext ∧ Forall (passed mo ext) acc))
      as H.
    simpl in H. lapply H; [clear H; intros H; lapply H; [clear H; intros H|]|].
    + lapply H; [clear H; intros H|].
      * specialize (H post_id s). rewrite E in H. apply H.
        exists []. split; [by rewrite app_nil_r | constructor].
      * intros acc cv c p t ts m w0 tr n seen Hc Hp Hm Hts Hf (ext & -> & Hacc).
        exists (ext ++ [EvNow t]). split; [by rewrite app_assoc|].
        apply Forall_app. split; [by apply Forall_passed_app|].
        apply Forall_singleton. exists c, p. split; [done|]. split; [done|].
        exists t, ts, m. split; [apply elem_of_app; right; by left|done].
    + intros acc w0 tr n seen e He (ext & -> & Hacc). exists (ext ++ [e]).
      split; [by rewrite app_assoc | by apply Forall_passed_app].
    + by intros acc w0 tr n seen w'.
Qed.

End Claims.

(** *** sanitize_text *)

Lemma escape_match_newline c : escape_match c newline = false.
Proof.
  unfold escape_match. rewrite (bool_decide_eq_true_2 (newline = newline)) by done.
  apply andb_false_r.
Qed.

Lemma escape_match_backslash c d : escape_match c d = true → c = backslash.
Proof.
  unfold escape_match. intros [Hc _]%andb_prop. by apply bool_decide_eq_true in Hc.
Qed.

(** When the scan keeps the first character and goes on, no match starts
    at that character in the output either. *)
Lemma has_escape_kept c d out :
  escape_match c d = false →
  (∀ e out', out = String e out' → c = backslash → e = newline) →
  has_escape (String c out) = has_escape out.
Proof.
  intros Hno Hhead. destruct out as [|e out']; [done|].
  change (has_escape (String c (String e out')))
    with (escape_match c e || has_escape (String e out')).
  destruct (escape_match c e) eqn:He; [|done].
  pose proof (escape_match_backslash _ _ He) as Hc.
  rewrite (Hhead e out' eq_refl Hc), escape_match_newline in He. done.
Qed.

(** A text that starts with a newline still does after the scan. *)
Lemma sanitize_text_newline rest :
  ∃ out, sanitize_text (String newline rest) = String newline out.
Proof.
  destruct rest as [|d rest]; [by eexists|].
  change (sanitize_text (String newline (String d rest)))
    with (if escape_match newline d then sanitize_text rest
          else String newline (sanitize_text (String d rest))).
  assert (escape_match newline d = false) as ->; [|by eexists].
  unfold escape_match. by rewrite bool_decide_eq_false_2.
Qed.

Lemma sanitize_text_clean_bounded n text :
  (String.length text ≤ n)%nat → has_escape (sanitize_text text) = false.
Proof.
  revert text. induction n as [|n IH]; intros text Hlen.
  { destruct text; [done|simpl in Hlen; lia]. }
  destruct text as [|c [|d rest]]; [done|done|].
  change (sanitize_text (String c (String d rest)))
    with (if escape_match c d then sanitize_text rest
          else String c (sanitize_text (String d rest))).
  destruct (escape_match c d) eqn:Hm.
  - apply IH. simpl in Hlen. lia.
  - rewrite (has_escape_kept c d); [apply IH; simpl in *; lia|done|].
    intros e out' Hout Hc.
    assert (d = newline) as ->.
    { unfold escape_match in Hm. rewrite bool_decide_eq_true_2 in Hm by done.
      simpl in Hm. apply negb_false_iff, bool_decide_eq_true in Hm. done. }
    destruct (sanitize_text_newline rest) as [out Hnl]. congruence.
Qed.

Lemma sanitize_text_fixed_bounded n text :
  (String.length text ≤ n)%nat → has_escape text = false →
  sanitize_text text = text.
Proof.
  revert text. induction n as [|n IH]; intros text Hlen Hclean.
  { destruct text; [done|simpl in Hlen; lia]. }
  destruct text as [|c [|d rest]]; [done|done|].
  change (has_escape (String c (String d rest)))
    with (escape_match c d || has_escape (String d rest)) in Hclean.
  apply orb_false_elim in Hclean as [Hm Hrest].
  change (sanitize_text (String c (String d rest)))
    with (if escape_match c d then sanitize_text rest
          else String c (sanitize_text (String d rest))).
  rewrite Hm. f_equal. apply IH; [simpl in *; lia|done].
Qed.

(** C8. Sanitizing a sanitized text changes nothing: the output of
    [sanitize_text] has no match of [escape_character_pattern] left (a
    backslash followed by a character other than a newline, which is what
    [\\.] matches). *)
Theorem sanitize_text_idempotent (t : string) :
  sanitize_text (sanitize_text t) = sanitize_text t ∧
  has_escape (sanitize_text t) = false.
Proof.
  assert (has_escape (sanitize_text t) = false) as Hclean
    by by eapply sanitize_text_clean_bounded.
  split; [|done]. by eapply sanitize_text_fixed_bounded.
Qed.

(** *** read_parameters *)

(** C4. For [None], for an empty dict and for any object that is not a
    dict, [read_parameters] does not return the three defaults: its
    [else] branch assigns [min_post_length] only, and the [return] raises
    [UnboundLocalError] on [max_oldness_seconds]. *)
Theorem read_parameters_unbound :
  read_parameters ArgNone = Raise UnboundLocalError ∧
  read_parameters (ArgDict ∅) = Raise UnboundLocalError ∧
  ∀ truthy, read_parameters (ArgOther truthy) = Raise UnboundLocalError.
Proof.
  split; [done|]. split; [done|]. intros truthy.
  unfold read_parameters. simpl. by rewrite andb_false_r.
Qed.

Lemma read_parameters_dict (d : gmap string pyval) :
  d ≠ ∅ →
  read_parameters (ArgDict d) =
    Ok (max_oldness_of (ArgDict d), maximum_items_of (ArgDict d),
        dict_get (ArgDict d) "min_post_length" (PyInt DEFAULT_MIN_POST_LENGTH)).
Proof.
  intros Hd. unfold read_parameters.
  assert (truthy_arg (ArgDict d) = true) as ->; [|done].
  simpl. apply negb_true_iff, Nat.eqb_neq. by rewrite map_size_empty_iff.
Qed.

Section MinPostLength.
Context {W : Type} {the_world : World W} {the_library : Library}.

(** C9. Two invocations whose dicts differ only in the value of
    [min_post_length], started in the same world (the same responses, the
    same readings of the clock, the same random draws), yield the same
    Items; they even leave the same trace and end the same way. *)
Theorem min_post_length_not_enforced (d : gmap string pyval) (v1 v2 : pyval) (w : W) :
  yielded (run_query (ArgDict (<["min_post_length" := v1]> d)) w).1 =
  yielded (run_query (ArgDict (<["min_post_length" := v2]> d)) w).1 ∧
  run_query (ArgDict (<["min_post_length" := v1]> d)) w =
  run_query (ArgDict (<["min_post_length" := v2]> d)) w.
Proof.
  assert (run_query (ArgDict (<["min_post_length" := v1]> d)) w =
          run_query (ArgDict (<["min_post_length" := v2]> d)) w) as E.
  { unfold run_query, query.
    rewrite !read_parameters_dict by apply insert_non_empty.
    unfold max_oldness_of, maximum_items_of, dict_get.
    rewrite !(lookup_insert_ne _ "min_post_length" "max_oldness_seconds"),
      !(lookup_insert_ne _ "min_post_length" "maximum_items_to_collect") by done.
    reflexivity. }
  by rewrite E.
Qed.

End MinPostLength.

(** *** The Community Sampler *)

Section Sampler.
Context {W : Type} {the_world : World W} {the_library : Library}.

(** C5, as the code has it.  For a list of fewer than 10 communities
    the sampling step raises: [random.sample(communities, 10)] gives a
    [ValueError] before it draws anything.  The statement of lines 215-347
    ([if communities: try ... except]) still ends normally and traverses
    no community: an empty list is skipped by the [if], and for a list
    that is not empty the handler catches the [ValueError] and logs it.
    All the statement adds to the frame is that log: nothing is requested
    and nothing is yielded. *)
Theorem small_community_list_is_skipped
    (mo mi : pyval) (communities : list community_view) (s : @frame W) :
  (length communities < 10)%nat →
  select_communities communities s = (s, Raise ValueError) ∧
  match communities with
  | _ :: _ =>
      try_except (browse mo mi communities) (λ e, emit (EvException e))
  | [] => mret ()
  end s =
    (Frame (world s)
           (trace s ++ match communities with
                       | [] => []
                       | _ :: _ => [EvException ValueError]
                       end)
           (yielded_items s) (id_found s), Ok ()).
Proof.
  intros Hlen.
  assert (select_communities communities s = (s, Raise ValueError)) as Hsel.
  { unfold select_communities, random_sample, LEMMY_NB_COMMUNITIES_TO_BROWSE.
    rewrite (bool_decide_eq_false_2 (10 ≤ length communities)%nat) by lia.
    done. }
  split; [done|].
  destruct communities as [|cv communities].
  - destruct s. simpl. by rewrite app_nil_r.
  - unfold try_except, browse, mbind, M_bind at 1. by rewrite Hsel.
Qed.

End Sampler.

(** With the five communities of [Scenario.five] the sampler raises. *)
Lemma sampling_five_raises :
  ¬ sampling_succeeds (the_world := Scenario.five) (Scenario.ranked 5) (start 0).
Proof. intros (s' & selected & E & _). vm_compute in E. discriminate E. Qed.

Lemma small_community_list_is_skipped_witness :
  (length (Scenario.ranked 5) < 10)%nat ∧
  select_communities (the_world := Scenario.five) (Scenario.ranked 5) (start 0)
    = (start 0, Raise ValueError) ∧
  try_except (browse (the_world := Scenario.five) (the_library := Scenario.library)
                (PyInt 1200) (PyInt 3) (Scenario.ranked 5))
             (λ e, emit (EvException e)) (start 0)
    = (Frame 0 ([] ++ [EvException ValueError]) 0 ∅, Ok ()).
Proof.
  split; [vm_compute; lia|].
  apply (small_community_list_is_skipped (the_world := Scenario.five)
           (the_library := Scenario.library)
           (PyInt 1200) (PyInt 3) (Scenario.ranked 5) (start 0)).
  vm_compute. lia.
Defined.

Lemma query_respects_budget_witness :
  Scenario.three_items !! "maximum_items_to_collect" = Some (PyInt 3) ∧
  0 ≤ 3 ∧
  Z.of_nat (length (yielded
    (run_query (the_world := Scenario.busy) (the_library := Scenario.library)
       (ArgDict Scenario.three_items) 10000000).1)) ≤ 3 ∧
  ∀ pre n m post,
    (run_query (the_world := Scenario.busy) (the_library := Scenario.library)
       (ArgDict Scenario.three_items) 10000000).1
      = pre ++ EvBudgetReached n m :: post →
    Z.of_nat (length (yielded pre)) = 3 ∧ yielded post = [].
Proof.
  split; [reflexivity|]. split; [lia|].
  apply (query_respects_budget (the_world := Scenario.busy)
           (the_library := Scenario.library) Scenario.three_items 3 10000000);
    [reflexivity | lia].
Defined.

(** *** The Remote Client and the handler of [query] *)

(** C6. When [session.get] raises [e], a timeout for one, none of the three
    functions returns the empty list or [None]: each has a [try] with a
    [finally] and no [except], and raises [e] to its caller. *)
Theorem fetch_raises_what_get_raises (e : exn) (sort name : string)
    (post_id : Z) (max_oldness : pyval) (s : @frame Z) :
  (fetch_communities (the_world := Scenario.failing e) sort s).2 = Raise e ∧
  (fetch_new_posts_from_community (the_world := Scenario.failing e) name s).2
    = Raise e ∧
  (fetch_comments_for_post (the_world := Scenario.failing e)
     (the_library := Scenario.library) post_id max_oldness s).2 = Raise e.
Proof. done. Qed.

(** C7. An exception of the first request, the list of communities, is not
    caught: line 213 stands before the [try] of line 216, and the
    exception leaves the generator at its first step. *)
Theorem query_propagates_community_list_failure (e : exn) (w : Z) :
  run_query (the_world := Scenario.community_list_fails e)
            (the_library := Scenario.library)
            (ArgDict Scenario.three_items) w
  = ([EvGet (CommunityList "TopDay")], Raise e).
Proof. done. Qed.

(** C10. With a budget of 0 the same exception of the first request leaves
    the generator: the invocation yields nothing, but it does not end
    without error. *)
Theorem zero_budget_query_propagates_failure (w : Z) :
  run_query (the_world := Scenario.community_list_fails TimeoutError)
            (the_library := Scenario.library)
            (ArgDict Scenario.no_items) w
  = ([EvGet (CommunityList "TopDay")], Raise TimeoutError).
Proof. done. Qed.

(** *** What holds of the budget and of the handler in every world *)

Section Everywhere.
Context {W : Type} {the_world : World W} {the_library : Library}.

(** With a budget that is not positive nothing is ever yielded. *)
Theorem nonpositive_budget_yields_nothing (d : gmap string pyval) (N : Z) (w : W) :
  d !! "maximum_items_to_collect" = Some (PyInt N) →
  N ≤ 0 →
  yielded (run_query (ArgDict d) w).1 = [].
Proof.
  intros Hd HN.
  destruct (run_query_allowed (ArgDict d) w) as (k & seen & Hr).
  assert (maximum_items_of (ArgDict d) = PyInt N) as Hmi.
  { unfold maximum_items_of. simpl. by rewrite Hd. }
  pose proof (reachable_count _ _ _ _ _ Hr) as Hcount.
  pose proof (reachable_budget _ _ _ _ _ N Hr Hmi) as Hle.
  apply length_zero_iff_nil. lia.
Qed.

(** [random.choice(sorts)] returns. *)
Lemma random_choice_sorts (s : @frame W) :
  ∃ s' sort, random_choice sorts s = (s', Ok sort).
Proof.
  unfold random_choice, sorts, io, mbind, M_bind.
  change (length _) with 5%nat.
  destruct (randbelow 5 (world s)) as [j w'].
  assert (j `mod` 5 < 5)%nat as Hj by (apply Nat.mod_upper_bound; lia).
  destruct (j `mod` 5)%nat as [|[|[|[|[|?]]]]]; simpl; try by eauto.
  lia.
Qed.

(** An exception leaves [query] only when [read_parameters] raises it or
    when the first request, [fetch_communities], raises it: whatever is
    raised after line 216 is caught by the handler. *)
Theorem query_raises_only_before_try (parameters : pyarg) (w : W) (e : exn) :
  (run_query parameters w).2 = Raise e →
  read_parameters parameters = Raise e ∨
  ∃ sort (s s' : @frame W), fetch_communities sort s = (s', Raise e).
Proof.
  set (G := ∃ sort (s s' : @frame W), fetch_communities sort s = (s', Raise e)).
  assert (∀ sort (s s' : @frame W),
            fetch_communities sort s = (s', Raise e) → G) as HG
    by (unfold G; eauto).
  clearbody G. unfold run_query.
  destruct (random_choice_sorts (Frame w [] 0 ∅)) as (s1 & sort & Hsort).
  unfold query, mbind, M_bind, lift, set_yielded_items, set_id_found, try_except.
  destruct (read_parameters parameters) as [[[mo mi] ml]|e0];
    cbn -[random_choice fetch_communities browse].
  - unfold start in Hsort. rewrite Hsort.
    destruct (fetch_communities sort s1) as [s2 [communities|e1]] eqn:Hfetch;
      cbn -[browse].
    + destruct communities as [|cv communities]; [done|].
      by destruct (browse mo mi (cv :: communities) _) as [s3 [[]|e2]].
    + intros [= <-]. right. by eapply HG.
  - intros [= <-]. by left.
Qed.

End Everywhere.

(** Any status other than 200 gives the empty list or [None], and the body
    is not read. *)
Theorem fetch_returns_empty_on_other_status (status : Z) (sort name : string)
    (post_id : Z) (max_oldness : pyval) (s : @frame Z) :
  status ≠ 200 →
  (fetch_communities (the_world := Scenario.answering status) sort s).2 = Ok [] ∧
  (fetch_new_posts_from_community (the_world := Scenario.answering status) name s).2
    = Ok None ∧
  (fetch_comments_for_post (the_world := Scenario.answering status)
     (the_library := Scenario.library) post_id max_oldness s).2 = Ok None.
Proof.
  intros Hstatus.
  unfold fetch_communities, fetch_new_posts_from_community,
    fetch_comments_for_post, mbind, M_bind. simpl.
  by rewrite bool_decide_eq_false_2.
Qed.

Lemma nonpositive_budget_yields_nothing_witness :
  Scenario.no_items !! "maximum_items_to_collect" = Some (PyInt 0) ∧
  0 ≤ 0 ∧
  yielded (run_query (the_world := Scenario.busy) (the_library := Scenario.library)
             (ArgDict Scenario.no_items) 10000000).1 = [].
Proof.
  split; [reflexivity|]. split; [lia|].
  apply (nonpositive_budget_yields_nothing (the_world := Scenario.busy)
           (the_library := Scenario.library) Scenario.no_items 0 10000000);
    [reflexivity | lia].
Defined.

Lemma query_raises_only_before_try_witness :
  (run_query (the_world := Scenario.community_list_fails TimeoutError)
     (the_library := Scenario.library) (ArgDict Scenario.three_items) 0).2
    = Raise TimeoutError ∧
  (read_parameters (ArgDict Scenario.three_items) = Raise TimeoutError ∨
   ∃ sort (s s' : @frame Z),
     fetch_communities (the_world := Scenario.community_list_fails TimeoutError)
       sort s = (s', Raise TimeoutError)).
Proof.
  split; [reflexivity|].
  apply (query_raises_only_before_try
           (the_world := Scenario.community_list_fails TimeoutError)
           (the_library := Scenario.library) (ArgDict Scenario.three_items) 0).
  reflexivity.
Defined.

Lemma fetch_returns_empty_on_other_status_witness :
  404 ≠ 200 ∧
  (fetch_communities (the_world := Scenario.answering 404) "TopDay" (start 0)).2
    = Ok [] ∧
  (fetch_new_posts_from_community (the_world := Scenario.answering 404) "c0"
     (start 0)).2 = Ok None ∧
  (fetch_comments_for_post (the_world := Scenario.answering 404)
     (the_library := Scenario.library) 1 (PyInt 1200) (start 0)).2 = Ok None.
Proof.
  split; [discriminate|].
  apply (fetch_returns_empty_on_other_status 404 "TopDay" "c0" 1 (PyInt 1200)
           (start 0)).
  discriminate.
Defined.

Lemma query_yields_fresh_witness :
  busy_trace = take 3 busy_trace ++ EvYield Scenario.first_item :: drop 4 busy_trace ∧
  fresh_at_yield (the_library := Scenario.library) (PyInt 1200)
                 (take 3 busy_trace) Scenario.first_item.
Proof.
  assert (busy_trace
          = take 3 busy_trace ++ EvYield Scenario.first_item :: drop 4 busy_trace)
    as E by (vm_compute; reflexivity).
  split; [exact E|].
  exact (proj1 (query_yields_fresh (the_world := Scenario.busy)
                  (the_library := Scenario.library)
                  (ArgDict Scenario.three_items) 10000000)
               (take 3 busy_trace) Scenario.first_item (drop 4 busy_trace) E).
Defined.

(** ** More on the functions of the module *)

(** *** sanitize_text, continued *)

(** [sanitize_text] leaves a text as it is exactly when the text has no
    match of [escape_character_pattern]. *)
Theorem sanitize_text_changes_only_matches (t : string) :
  sanitize_text t = t ↔ has_escape t = false.
Proof.
  split.
  - intros E. rewrite <- E. by eapply sanitize_text_clean_bounded.
  - intros Hclean. by eapply sanitize_text_fixed_bounded.
Qed.

Lemma sanitize_text_sublist_bounded n text :
  (String.length text ≤ n)%nat →
  chars (sanitize_text text) `sublist_of` chars text.
Proof.
  revert text. induction n as [|n IH]; intros text Hlen.
  { destruct text; [constructor|simpl in Hlen; lia]. }
  destruct text as [|c [|d rest]]; [constructor|done|].
  change (sanitize_text (String c (String d rest)))
    with (if escape_match c d then sanitize_text rest
          else String c (sanitize_text (String d rest))).
  destruct (escape_match c d).
  - change (chars (String c (String d rest))) with (c :: d :: chars rest).
    do 2 apply sublist_cons. apply IH. simpl in Hlen. lia.
  - change (chars (String c (sanitize_text (String d rest))))
      with (c :: chars (sanitize_text (String d rest))).
    change (chars (String c (String d rest))) with (c :: chars (String d rest)).
    apply sublist_skip. apply IH. simpl in *. lia.
Qed.

Lemma length_chars t : length (chars t) = String.length t.
Proof. induction t as [|c t IH]; simpl; [done|]. by f_equal. Qed.

(** [sanitize_text] only deletes: the characters of its output are
    characters of the input, in the same order, and the output is no
    longer than the input. *)
Theorem sanitize_text_only_deletes (t : string) :
  chars (sanitize_text t) `sublist_of` chars t ∧
  (String.length (sanitize_text t) ≤ String.length t)%nat.
Proof.
  assert (chars (sanitize_text t) `sublist_of` chars t) as Hsub
    by by eapply sanitize_text_sublist_bounded.
  split; [done|]. rewrite <- !length_chars. by apply sublist_length.
Qed.

(** A text up to its first backslash is kept: with no backslash in [t1],
    sanitizing [t1 ++ t2] gives [t1] followed by the sanitized [t2]. *)
Lemma sanitize_text_prefix t1 t2 :
  backslash ∉ chars t1 →
  sanitize_text (t1 +:+ t2) = t1 +:+ sanitize_text t2.
Proof.
  induction t1 as [|c t1 IH]; intros Hno; [done|].
  assert (c ≠ backslash) as Hc.
  { intros ->. apply Hno. by left. }
  assert (backslash ∉ chars t1) as Hno'.
  { intros Hin. apply Hno. by right. }
  change (String c t1 +:+ t2) with (String c (t1 +:+ t2)).
  change (String c t1 +:+ sanitize_text t2)
    with (String c (t1 +:+ sanitize_text t2)).
  rewrite <- (IH Hno').
  destruct (t1 +:+ t2) as [|d rest]; [done|].
  change (sanitize_text (String c (String d rest)))
    with (if escape_match c d then sanitize_text rest
          else String c (sanitize_text (String d rest))).
  assert (escape_match c d = false) as ->; [|done].
  unfold escape_match. by rewrite bool_decide_eq_false_2.
Qed.

(** A text without a backslash, a URL for one, comes out unchanged, and a
    prefix without a backslash is kept whatever follows it. *)
Theorem sanitize_text_keeps_plain_text (t1 t2 : string) :
  backslash ∉ chars t1 →
  sanitize_text t1 = t1 ∧
  sanitize_text (t1 +:+ t2) = t1 +:+ sanitize_text t2.
Proof.
  intros Hno. split; [|by apply sanitize_text_prefix].
  pose proof (sanitize_text_prefix t1 "" Hno) as E.
  assert (∀ t : string, t +:+ "" = t) as Hnil.
  { intros t. induction t as [|c t IH]; [done|].
    change (String c (t +:+ "") = String c t). by rewrite IH. }
  change (sanitize_text "") with ""%string in E.
  rewrite !Hnil in E. exact E.
Qed.

Lemma sanitize_text_keeps_plain_text_witness :
  (backslash ∉ chars "https://lemmy.world/post/1") ∧
  (sanitize_text "https://lemmy.world/post/1" = "https://lemmy.world/post/1"%string) ∧
  (sanitize_text ("https://lemmy.world/post/1" +:+ " \n")
    = ("https://lemmy.world/post/1" +:+ sanitize_text " \n")%string).
Proof.
  assert (backslash ∉ chars "https://lemmy.world/post/1") as Hno.
  { intros Hin. vm_compute in Hin.
    repeat (apply elem_of_cons in Hin as [Hin|Hin]; [discriminate Hin|]).
    by apply elem_of_nil in Hin. }
  split; [exact Hno|].
  exact (sanitize_text_keeps_plain_text "https://lemmy.world/post/1" " \n" Hno).
Defined.

(** *** read_parameters, continued *)

(** For a dict that is not empty each of the three keys is read on its
    own: the value of the key when the dict has it ([None] included),
    its default otherwise.  A dict with other keys only gives the three
    defaults 3600, 100 and 10. *)
Theorem read_parameters_reads_each_key (d : gmap string pyval) :
  d ≠ ∅ →
  read_parameters (ArgDict d) =
    Ok (default (PyInt 3600) (d !! "max_oldness_seconds"),
        default (PyInt 100) (d !! "maximum_items_to_collect"),
        default (PyInt 10) (d !! "min_post_length")).
Proof. intros Hd. by rewrite read_parameters_dict. Qed.

Lemma read_parameters_reads_each_key_witness :
  ({["maximum_items_to_collect" := PyNone]} : gmap string pyval) ≠ ∅ ∧
  read_parameters (ArgDict {["maximum_items_to_collect" := PyNone]}) =
    Ok (default (PyInt 3600)
          (({["maximum_items_to_collect" := PyNone]} : gmap string pyval)
             !! "max_oldness_seconds"),
        default (PyInt 100)
          (({["maximum_items_to_collect" := PyNone]} : gmap string pyval)
             !! "maximum_items_to_collect"),
        default (PyInt 10)
          (({["maximum_items_to_collect" := PyNone]} : gmap string pyval)
             !! "min_post_length")).
Proof.
  assert (({["maximum_items_to_collect" := PyNone]} : gmap string pyval) ≠ ∅)
    as Hd by apply insert_non_empty.
  split; [exact Hd|].
  exact (read_parameters_reads_each_key _ Hd).
Defined.

(** *** The Community Sampler, continued *)

Lemma dict_set_keys {V} (k : string) (v : V) d :
  (dict_set k v d).*1 = if bool_decide (k ∈ d.*1) then d.*1 else d.*1 ++ [k].
Proof.
  induction d as [|[k' v'] d IH].
  { rewrite bool_decide_eq_false_2; [done|]. apply not_elem_of_nil. }
  csimpl. destruct (decide (k' = k)) as [->|Hne].
  - rewrite (bool_decide_eq_true_2 (k = k)) by done. csimpl.
    rewrite bool_decide_eq_true_2; [done|]. by left.
  - rewrite (bool_decide_eq_false_2 (k' = k)) by done. csimpl. rewrite IH.
    destruct (decide (k ∈ d.*1)) as [Hin|Hin].
    + rewrite (bool_decide_eq_true_2 (k ∈ d.*1)) by done.
      rewrite bool_decide_eq_true_2; [done|]. by right.
    + rewrite (bool_decide_eq_false_2 (k ∈ d.*1)) by done.
      rewrite bool_decide_eq_false_2; [done|].
      intros [->|?]%elem_of_cons; done.
Qed.

Lemma dict_set_pairs {V} (k : string) (v : V) d k0 v0 :
  (k0, v0) ∈ dict_set k v d → (k0, v0) = (k, v) ∨ (k0, v0) ∈ d.
Proof.
  induction d as [|[k' v'] d IH]; simpl.
  { intros ->%list_elem_of_singleton. by left. }
  destruct (bool_decide (k' = k)).
  - intros [->|?]%elem_of_cons; [by left | right; by right].
  - intros [->|Hin]%elem_of_cons; [right; by left|].
    destruct (IH Hin) as [?|?]; [by left | right; by right].
Qed.

Lemma dict_set_length {V} (k : string) (v : V) d :
  (length (dict_set k v d) ≤ S (length d))%nat.
Proof.
  induction d as [|[k' v'] d IH]; simpl; [lia|].
  destruct (bool_decide (k' = k)); simpl; lia.
Qed.

Lemma by_name_dict_set k v d :
  name_of v = Some k → by_name d → by_name (dict_set k v d).
Proof.
  intros Hv [Hnd Hnames]. split.
  - rewrite dict_set_keys. case_bool_decide as Hin; [done|].
    apply NoDup_app. split; [done|]. split; [|apply NoDup_singleton].
    intros x Hx ->%list_elem_of_singleton. done.
  - intros k0 v0 [[= -> ->]|Hin]%dict_set_pairs; [done|by apply Hnames].
Qed.

Lemma by_name_names d : by_name d → NoDup (name_of <$> d.*2).
Proof.
  intros [Hnd Hnames].
  assert (name_of <$> d.*2 = Some <$> d.*1) as ->.
  { clear Hnd. induction d as [|[k v] d IH]; [done|]. simpl. f_equal.
    - apply Hnames. by left.
    - apply IH. intros k0 v0 Hin. apply Hnames. by right. }
  by apply (NoDup_fmap_2 Some).
Qed.

Section SamplerSpecs.
Context {W : Type} {the_world : World W} {the_library : Library}.
Variable P : @frame W → Prop.
Hypothesis P_world : ∀ w tr n seen w',
  P (Frame w tr n seen) → P (Frame w' tr n seen).

Lemma spec_io {A B} (op : W → A * W) (k : A → M B) Q E :
  (∀ a, spec P (k a) Q E) → spec P (io op ≫= k) Q E.
Proof.
  intros Hk [w tr n seen] Hs. unfold io, mbind, M_bind. simpl.
  destruct (op w) as [a w']. apply Hk. by eapply P_world.
Qed.

(** [k] draws from a pool that has them succeed, and give [k] of its
    elements, none taken twice. *)
Lemma draw_spec {A} (pool : list A) k :
  (k ≤ length pool)%nat →
  spec P (draw pool k) (λ r s, P s ∧ length r = k ∧ r ⊆+ pool) (λ _, False).
Proof.
  revert pool. induction k as [|k IH]; intros pool Hk; simpl.
  { apply spec_ret. intros s Hs. split; [done|]. split; [done|].
    apply submseteq_nil_l. }
  apply spec_io. intros j.
  assert (j `mod` length pool < length pool)%nat as Hj
    by (apply Nat.mod_upper_bound; lia).
  destruct (lookup_lt_is_Some_2 pool _ Hj) as [a Ha]. rewrite Ha.
  eapply spec_bind.
  - apply IH. rewrite length_delete by by eexists. lia.
  - intros rest. apply spec_ret. intros s (Hs & Hlen & Hsub).
    split; [done|]. split; [simpl; lia|].
    rewrite (delete_Permutation pool _ a Ha). by apply submseteq_skip.
Qed.

Lemma random_sample_spec {A} (population : list A) k :
  (k ≤ length population)%nat →
  spec P (random_sample population k)
       (λ r s, P s ∧ length r = k ∧ r ⊆+ population) (λ _, False).
Proof.
  intros Hk. unfold random_sample. rewrite bool_decide_eq_true_2 by done.
  by apply draw_spec.
Qed.

Lemma spec_getitem_some {A B} (a : A) (k : A → M B) Q E :
  spec P (k a) Q E → spec P (getitem (Some a) ≫= k) Q E.
Proof. intros Hk s Hs. exact (Hk s Hs). Qed.

Lemma dict_by_name_spec l d :
  Forall (λ v, is_Some (name_of v)) l →
  by_name d →
  spec P (dict_by_name l d)
       (λ d' s, P s ∧ by_name d' ∧
                (∀ k v, (k, v) ∈ d' → (k, v) ∈ d ∨ v ∈ l) ∧
                (∀ v, v ∈ l → name_of v ∈ Some <$> d'.*1) ∧
                (∀ k, k ∈ d.*1 → k ∈ d'.*1) ∧
                (length d' ≤ length d + length l)%nat)
       (λ _, False).
Proof.
  revert d. induction l as [|v l IH]; intros d Hl Hd; simpl.
  { apply spec_ret. intros s Hs. split; [done|]. split; [done|].
    split; [by left|]. split; [by intros ? ?%elem_of_nil|].
    split; [done|lia]. }
  apply Forall_cons in Hl as [[k Hname] Hl].
  pose proof Hname as Hk. unfold name_of in Hk.
  destruct (cv_community v) as [c|] eqn:Hc; [|done]. simpl in Hk.
  apply spec_getitem_some. rewrite Hk. apply spec_getitem_some.
  eapply spec_weaken;
    [apply (IH (dict_set k v d) Hl (by_name_dict_set _ _ _ Hname Hd))
    |done| |done].
  intros d' s (Hs & Hd' & Hfrom & Hcover & Hkeys & Hlen).
  split; [done|]. split; [done|]. split; [|split; [|split]].
  - intros k0 v0 Hin. destruct (Hfrom _ _ Hin) as [Hset|?]; [|right; by right].
    apply dict_set_pairs in Hset as [[= -> ->]|?]; [right; by left|by left].
  - intros v0 [->|Hin]%elem_of_cons; [|by apply Hcover].
    rewrite Hname. apply list_elem_of_fmap. exists k. split; [done|].
    apply Hkeys. rewrite dict_set_keys.
    case_bool_decide; [done|]. apply elem_of_app. right. by left.
  - intros k0 Hin. apply Hkeys. rewrite dict_set_keys.
    case_bool_decide; [done|]. apply elem_of_app. by left.
  - pose proof (dict_set_length k v d). simpl. lia.
Qed.

Lemma spec_assume {A} (F : Prop) (m : M A) Q E :
  (F → spec P m Q E) → spec (λ s, P s ∧ F) m Q E.
Proof. intros Hm s [Hs HF]. by apply Hm. Qed.

Lemma select_communities_spec communities :
  (10 ≤ length communities)%nat →
  Forall (λ v, is_Some (name_of v)) communities →
  spec P (select_communities communities)
       (λ sel s, P s ∧ NoDup (name_of <$> sel) ∧
                 (∀ v, v ∈ sel → v ∈ communities) ∧
                 (1 ≤ length sel ≤ 20)%nat ∧
                 (∀ v, v ∈ take 10 communities →
                       name_of v ∈ name_of <$> sel))
       (λ _, False).
Proof.
  intros Hlen Hnamed. unfold select_communities,
    LEMMY_NB_COMMUNITIES_TO_BROWSE, LEMMY_DEFAULT_TOP_COMMUNITIES.
  eapply spec_bind; [by apply random_sample_spec|]. intros first.
  apply spec_assume. intros [Hfirst_len Hfirst].
  eapply spec_bind with
    (Q := λ sampled s, P s ∧ ((1 ≤ length sampled ≤ 20)%nat ∧
            (∀ v, v ∈ sampled → v ∈ communities) ∧
            (∀ v, v ∈ take 10 communities → v ∈ sampled))).
  - case_bool_decide as Hmore.
    + eapply spec_bind.
      * apply (random_sample_spec (take 10 communities) 10).
        rewrite length_take. lia.
      * intros top. apply spec_assume. intros [Htop_len Htop].
        apply spec_ret. intros s Hs.
        assert (top ≡ₚ take 10 communities) as Hperm.
        { apply submseteq_length_Permutation; [done|].
          rewrite length_take. lia. }
        split; [done|]. split; [|split].
        -- rewrite length_app. lia.
        -- intros v [Hv|Hv]%elem_of_app.
           ++ by eapply elem_of_submseteq.
           ++ rewrite Hperm in Hv. by apply (subseteq_take 10 communities).
        -- intros v Hv. apply elem_of_app. right. by rewrite Hperm.
    + apply spec_ret. intros s Hs.
      assert (length communities = 10)%nat as Hten by lia.
      assert (first ≡ₚ communities) as Hperm.
      { apply submseteq_length_Permutation; [done|]. lia. }
      split; [done|]. split; [lia|]. split.
      * intros v Hv. by rewrite <- Hperm.
      * intros v Hv. apply (subseteq_take 10 communities) in Hv.
        by rewrite Hperm.
  - intros sampled. apply spec_assume. intros (Hs_len & Hs_in & Hs_top).
    eapply spec_bind.
    + apply dict_by_name_spec.
      * apply Forall_forall. intros v Hv.
        by eapply (proj1 (Forall_forall _ _) Hnamed), Hs_in.
      * split; [constructor|]. by intros k v ?%elem_of_nil.
    + intros d. apply spec_assume.
      intros (Hd & Hfrom & Hcover & _ & Hd_len).
      apply spec_ret. intros s Hs. split; [done|].
      split; [by apply by_name_names|]. split; [|split].
      * intros v (kv & -> & Hin)%list_elem_of_fmap. destruct kv as [k v].
        destruct (Hfrom _ _ Hin) as [?%elem_of_nil|?]; [done|]. by apply Hs_in.
      * rewrite length_fmap. simpl in Hd_len. split; [|lia].
        destruct sampled as [|v sampled]; [simpl in Hs_len; lia|].
        assert (name_of v ∈ Some <$> d.*1) as Hv by (apply Hcover; by left).
        destruct d; [|simpl; lia]. by apply elem_of_nil in Hv.
      * intros v Hv. pose proof (Hcover v (Hs_top v Hv)) as Hk.
        apply list_elem_of_fmap in Hk as (k & Hname & Hk).
        apply list_elem_of_fmap in Hk as ([k' v'] & -> & Hin).
        apply list_elem_of_fmap. exists v'. split.
        -- rewrite Hname. symmetry. by apply Hd.
        -- apply list_elem_of_fmap. by exists (k', v').
Qed.

End SamplerSpecs.

Lemma ranked_named n :
  Forall (λ v, is_Some (name_of v)) (Scenario.ranked n).
Proof.
  unfold Scenario.ranked. apply Forall_fmap, Forall_forall.
  intros i _. by eexists.
Qed.

Section SamplerProperties.
Context {W : Type} {the_world : World W} {the_library : Library}.

(** Given at least 10 communities that all have a name, the sampler
    returns: between 1 and 20 communities of the list, no two of them
    with the same name; it logs nothing and touches neither the counter
    nor [id_found]. *)
Theorem select_communities_distinct_names
    (communities : list community_view) (s : @frame W) :
  (10 ≤ length communities)%nat →
  Forall (λ v, is_Some (name_of v)) communities →
  ∃ s' sel,
    select_communities communities s = (s', Ok sel) ∧
    same_locals s s' ∧
    NoDup (name_of <$> sel) ∧
    (∀ v, v ∈ sel → v ∈ communities) ∧
    (1 ≤ length sel ≤ 20)%nat.
Proof.
  intros Hlen Hnamed.
  pose proof (select_communities_spec (same_locals s)
                ltac:(by intros w tr n seen w') communities Hlen Hnamed s
                ltac:(done)) as H.
  destruct (select_communities communities s) as [s' [sel|e]]; [|done].
  destruct H as (? & ? & ? & ? & _). by exists s', sel.
Qed.

(** Given at least 10 communities that all have a name, the name of each
    of the first ten of the list is among the selected ones, whatever the
    random draws: the second draw takes 10 out of the first 10. *)
Theorem select_communities_takes_top_ten
    (communities : list community_view) (s : @frame W) :
  (10 ≤ length communities)%nat →
  Forall (λ v, is_Some (name_of v)) communities →
  ∃ s' sel,
    select_communities communities s = (s', Ok sel) ∧
    ∀ v, v ∈ take 10 communities → name_of v ∈ name_of <$> sel.
Proof.
  intros Hlen Hnamed.
  pose proof (select_communities_spec (λ _, True)
                ltac:(done) communities Hlen Hnamed s I) as H.
  destruct (select_communities communities s) as [s' [sel|e]]; [|done].
  destruct H as (_ & _ & _ & _ & H). by exists s', sel.
Qed.

End SamplerProperties.

Lemma select_communities_distinct_names_witness :
  (10 ≤ length (Scenario.ranked 12))%nat ∧
  Forall (λ v, is_Some (name_of v)) (Scenario.ranked 12) ∧
  ∃ s' sel,
    select_communities (the_world := Scenario.busy) (Scenario.ranked 12) (start 0)
      = (s', Ok sel) ∧
    same_locals (start 0) s' ∧
    NoDup (name_of <$> sel) ∧
    (∀ v, v ∈ sel → v ∈ Scenario.ranked 12) ∧
    (1 ≤ length sel ≤ 20)%nat.
Proof.
  assert (10 ≤ length (Scenario.ranked 12))%nat as Hlen by (vm_compute; lia).
  split; [exact Hlen|]. split; [apply ranked_named|].
  exact (select_communities_distinct_names (the_world := Scenario.busy)
           (Scenario.ranked 12) (start 0) Hlen (ranked_named 12)).
Defined.

Lemma select_communities_takes_top_ten_witness :
  (10 ≤ length (Scenario.ranked 12))%nat ∧
  Forall (λ v, is_Some (name_of v)) (Scenario.ranked 12) ∧
  ∃ s' sel,
    select_communities (the_world := Scenario.busy) (Scenario.ranked 12) (start 0)
      = (s', Ok sel) ∧
    ∀ v, v ∈ take 10 (Scenario.ranked 12) → name_of v ∈ name_of <$> sel.
Proof.
  assert (10 ≤ length (Scenario.ranked 12))%nat as Hlen by (vm_compute; lia).
  split; [exact Hlen|]. split; [apply ranked_named|].
  exact (select_communities_takes_top_ten (the_world := Scenario.busy)
           (Scenario.ranked 12) (start 0) Hlen (ranked_named 12)).
Defined.

(** *** The Remote Client, continued *)

Section CommentListing.
Context {W : Type} {the_world : World W} {the_library : Library}.

Lemma spec_io_result {A B} (op : W → A * W) (k : A → M B) Q E :
  (∀ w a w', op w = (a, w') → spec (λ _, True) (k a) Q E) →
  spec (λ _ : @frame W, True) (io op ≫= k) Q E.
Proof.
  intros Hk [w tr n seen] _. unfold io, mbind, M_bind. simpl.
  destruct (op w) as [a w'] eqn:Hop. by apply (Hk w a w' Hop).
Qed.

(** The loop keeps, in their order, some of the comments, and it gets to
    its end only when it could test every one of them. *)
Lemma keep_fresh_keeps_order mo comments acc :
  spec (λ _ : @frame W, True) (keep_fresh mo comments acc)
       (λ r _, ∃ kept, r = acc ++ kept ∧ kept `sublist_of` comments ∧
                       Forall testable comments)
       (λ _, True).
Proof.
  revert acc. induction comments as [|cv comments IH]; intros acc; simpl.
  { apply spec_ret. intros s _. exists []. by rewrite app_nil_r. }
  apply spec_getitem; [done|]. intros c Hc.
  apply spec_getitem; [done|]. intros p Hp.
  apply spec_parse_published; [done|]. intros d Hd _.
  apply spec_now. intros t.
  apply spec_lift; [done|]. intros age Hage.
  apply spec_lift; [done|]. intros limit Hlimit.
  assert (testable cv) as Hcv.
  { destruct d as [| |ts]; try done. by exists c, p, ts. }
  case_bool_decide.
  - eapply spec_weaken; [apply (IH (acc ++ [cv]))|done| |done].
    intros r s (kept & -> & Hsub & Hall). exists (cv :: kept).
    split; [by rewrite <- app_assoc|]. split; [by apply sublist_skip|].
    by apply Forall_cons.
  - eapply spec_weaken; [apply (IH acc)|done| |done].
    intros r s (kept & -> & Hsub & Hall). exists kept.
    split; [done|]. split; [by apply sublist_cons|]. by apply Forall_cons.
Qed.

(** When [fetch_comments_for_post] returns a list, the response had status
    200, the list is a subsequence of the comments of its body (their
    order is kept, nothing is added), and every comment of the body, kept
    or not, has a ["comment"] with a ["published"] timestamp that parses
    to an aware datetime: one comment that cannot be tested makes the
    whole call raise. *)
Theorem fetch_comments_for_post_keeps_order
    (post_id : Z) (mo : pyval) (s s' : @frame W) (l : list comment_view) :
  fetch_comments_for_post post_id mo s = (s', Ok (Some l)) →
  ∃ user_agent w1 w2 data,
    get_comment_list post_id user_agent w1 = (Response 200 (Ok data), w2) ∧
    l `sublist_of` default [] (cmj_comments data) ∧
    Forall testable (default [] (cmj_comments data)).
Proof.
  intros E.
  assert (spec (λ _ : @frame W, True) (fetch_comments_for_post post_id mo)
            (λ r _, ∀ l, r = Some l →
               ∃ user_agent w1 w2 data,
                 get_comment_list post_id user_agent w1
                   = (Response 200 (Ok data), w2) ∧
                 l `sublist_of` default [] (cmj_comments data) ∧
                 Forall testable (default [] (cmj_comments data)))
            (λ _, True)) as H.
  { unfold fetch_comments_for_post.
    eapply spec_bind with (Q := λ _ _, True).
    { by eapply (keeps_random_choice (λ _, True)). }
    intros user_agent.
    eapply spec_bind with (Q := λ _ _, True); [done|]. intros [].
    apply spec_io_result. intros w1 [status json|e] w2 Hget; [|done].
    case_bool_decide as Hstatus; [|by apply spec_ret].
    subst status. apply spec_lift; [done|]. intros data ->.
    eapply spec_bind; [apply keep_fresh_keeps_order|].
    intros r. apply spec_ret. intros s0 (kept & -> & Hsub & Hall) l0 [= <-].
    by exists user_agent, w1, w2, data. }
  specialize (H s I). rewrite E in H. by apply H.
Qed.

End CommentListing.

Lemma fetch_comments_for_post_keeps_order_witness :
  fetch_comments_for_post (the_world := Scenario.busy)
      (the_library := Scenario.library) 1 (PyInt 1200) (start 10000000)
    = ((fetch_comments_for_post (the_world := Scenario.busy)
          (the_library := Scenario.library) 1 (PyInt 1200) (start 10000000)).1,
       Ok (Some [Scenario.a_comment 11 "1234" 1; Scenario.a_comment 12 "12" 1])) ∧
  ∃ user_agent w1 w2 data,
    get_comment_list (World := Scenario.busy) 1 user_agent w1
      = (Response 200 (Ok data), w2) ∧
    [Scenario.a_comment 11 "1234" 1; Scenario.a_comment 12 "12" 1]
      `sublist_of` default [] (cmj_comments data) ∧
    Forall (testable (the_library := Scenario.library))
           (default [] (cmj_comments data)).
Proof.
  assert (fetch_comments_for_post (the_world := Scenario.busy)
            (the_library := Scenario.library) 1 (PyInt 1200) (start 10000000)
          = ((fetch_comments_for_post (the_world := Scenario.busy)
                (the_library := Scenario.library) 1 (PyInt 1200)
                (start 10000000)).1,
             Ok (Some [Scenario.a_comment 11 "1234" 1;
                       Scenario.a_comment 12 "12" 1]))) as E
    by (vm_compute; reflexivity).
  split; [exact E|].
  exact (fetch_comments_for_post_keeps_order (the_world := Scenario.busy)
           (the_library := Scenario.library) 1 (PyInt 1200) _ _ _ E).
Defined.

(** *** query, continued: the Items and the halt *)

Section Items.
Context {W : Type} {the_world : World W} {the_library : Library}.

Local Abbreviation Y := (Yields (W:=W) well_formed).

Lemma Y_world w tr n seen w' :
  Y (Frame w tr n seen) → Y (Frame w' tr n seen).
Proof. done. Qed.

Lemma Y_quiet w tr n seen e :
  quiet e → Y (Frame w tr n seen) → Y (Frame w (tr ++ [e]) n seen).
Proof. unfold Yields. simpl. intros He Hs. by rewrite yielded_snoc_quiet. Qed.

Lemma candidate_well_formed mi id item :
  well_formed item → spec Y (candidate mi id item) (λ _, Y) Y.
Proof.
  intros Hitem [w tr n seen] Hs. unfold Yields in *. simpl in *.
  unfold candidate, get_id_found, get_yielded_items, set_yielded_items,
    set_id_found, emit, lift, mbind, M_bind. simpl.
  destruct (seen !! id); simpl; [done|].
  destruct (py_ge n mi) as [[|]|e]; simpl; [| |done].
  - rewrite yielded_app. simpl. by rewrite app_nil_r.
  - rewrite yielded_app. simpl. apply Forall_app. split; [done|].
    by apply Forall_singleton.
Qed.

Lemma comment_iteration_well_formed mi post_title cv :
  spec Y (comment_iteration mi post_title cv) (λ _, Y) Y.
Proof.
  unfold comment_iteration.
  apply spec_getitem; [done|]. intros c _.
  apply spec_getitem; [done|]. intros comment_id _.
  apply spec_getitem; [done|]. intros comment_text _.
  apply spec_getitem; [done|]. intros comment_date _.
  apply spec_getitem; [done|]. intros comment_url _.
  apply spec_getitem; [done|]. intros comment_parent_id _.
  apply spec_getitem; [done|]. intros author_id _.
  apply candidate_well_formed.
  split; [done|]. split; [by eapply sanitize_text_clean_bounded|].
  split; by eexists.
Qed.

Lemma post_iteration_well_formed mo mi segmented_community_name pv :
  spec Y (post_iteration mo mi segmented_community_name pv) (λ _, Y) Y.
Proof.
  unfold post_iteration.
  apply spec_getitem; [done|]. intros post _.
  apply spec_getitem; [done|]. intros post_id _.
  apply spec_getitem; [done|]. intros post_url _.
  apply spec_getitem; [done|]. intros post_author_id _.
  apply spec_getitem; [done|]. intros post_date _.
  cbv zeta.
  destruct (match po_name post with
            | Some name => _
            | None => _
            end) as [post_title post_content].
  apply spec_lift; [done|]. intros content _.
  eapply spec_bind; [apply (keeps_now Y Y_world Y_quiet)|]. intros t.
  eapply spec_bind; [apply (keeps_parse_published Y)|]. intros d.
  apply spec_lift; [done|]. intros age _.
  apply spec_lift; [done|]. intros limit _.
  eapply spec_bind with (Q := λ _, Y).
  - case_bool_decide; [|by apply spec_ret].
    apply candidate_well_formed.
    split; [done|]. split; [by eapply sanitize_text_clean_bounded|].
    split; [by eexists|done].
  - intros [|]; [|by apply spec_ret].
    eapply spec_bind;
      [eapply keeps_fetch_comments_for_post; first [exact Y_world | exact Y_quiet]|].
    intros comments.
    eapply spec_bind with (Q := λ _, Y).
    + destruct comments as [[|cv l]|]; try by apply spec_ret.
      apply (spec_for_each _ (λ _, Y) Y Y); [|done].
      intros x rest. apply comment_iteration_well_formed.
    + intros []. apply (keeps_break_if_reached Y).
Qed.

Lemma community_iteration_well_formed mo mi cv :
  spec Y (community_iteration mo mi cv) (λ _, Y) Y.
Proof.
  unfold community_iteration.
  apply spec_getitem; [done|]. intros c _.
  apply spec_getitem; [done|]. intros name _.
  eapply spec_bind;
    [eapply keeps_fetch_new_posts_from_community;
       first [exact Y_world | exact Y_quiet]|].
  intros posts. cbv zeta.
  eapply spec_bind with (Q := λ _, Y).
  - destruct posts as [[[posts|]]|]; try by apply spec_ret.
    apply (spec_for_each _ (λ _, Y) Y Y); [|done].
    intros x rest. apply post_iteration_well_formed.
  - intros []. apply (keeps_break_if_reached Y).
Qed.

Lemma query_well_formed parameters :
  spec Y (query parameters) (λ _, Y) Y.
Proof.
  unfold query.
  apply spec_lift; [done|]. intros [[mo mi] ml] _.
  eapply spec_bind with (Q := λ _, Y); [by intros [w tr n seen] Hs|].
  intros [].
  eapply spec_bind; [eapply keeps_random_choice; exact Y_world|].
  intros selected_sort.
  eapply spec_bind;
    [eapply keeps_fetch_communities; first [exact Y_world | exact Y_quiet]|].
  intros communities.
  eapply spec_bind with (Q := λ _, Y); [by intros [w tr n seen] Hs|].
  intros [].
  destruct communities as [|cv communities]; [by apply spec_ret|].
  eapply spec_try_except with (E' := Y).
  - unfold browse.
    eapply spec_bind;
      [eapply keeps_select_communities; first [exact Y_world | exact Y_quiet]|].
    intros selected.
    eapply spec_bind; [apply (keeps_titles_of Y)|]. intros titles. cbv zeta.
    apply (spec_for_each _ (λ _, Y) Y Y); [|done].
    intros x rest. apply community_iteration_well_formed.
  - intros e. by apply (keeps_emit Y Y_quiet).
Qed.

(** Every Item that [query] yields has the domain ["lemmy.world"], a
    content in which no match of [escape_character_pattern] is left, the
    decimal writing of an integer as [external_id] and, when it has an
    [external_parent_id], the decimal writing of an integer there too. *)
Theorem query_yields_well_formed_items (parameters : pyarg) (w : W) :
  Forall well_formed (yielded (run_query parameters w).1).
Proof.
  unfold run_query.
  pose proof (query_well_formed parameters (start w)) as H.
  destruct (query parameters (start w)) as [s [[]|e]]; apply H; constructor.
Qed.

End Items.

Section Halting.
Context {W : Type} {the_world : World W} {the_library : Library}.

Local Abbreviation NB := (NoBudget (W:=W)).

Lemma NB_world w tr n seen w' :
  NB (Frame w tr n seen) → NB (Frame w' tr n seen).
Proof. done. Qed.

Lemma NB_quiet w tr n seen e :
  quiet e → NB (Frame w tr n seen) → NB (Frame w (tr ++ [e]) n seen).
Proof.
  unfold NoBudget. simpl. intros He Hs. apply Forall_app. split; [done|].
  apply Forall_singleton. intros Hb. by destruct e.
Qed.

(** A loop whose body either goes on with [K], or breaks with [K] or with
    [B]. *)
Lemma spec_for_each_halt {A} (body : A → M ctl) (K B E : @frame W → Prop) l :
  (∀ x, spec K (body x)
          (λ c s, match c with Next => K s | Break => K s ∨ B s end) E) →
  spec K (for_each body l) (λ _ s, K s ∨ B s) E.
Proof.
  intros Hbody. induction l as [|x l IH]; simpl.
  - apply spec_ret. by left.
  - eapply spec_bind; [apply Hbody|]. intros [|]; [apply IH|].
    by apply spec_ret.
Qed.

Section Budget.
Variable mi : pyval.
Local Abbreviation HT := (Halted (W:=W) mi).
Local Abbreviation goes_on_or_halts := (goes_on_or_halts (W:=W) mi).

Lemma candidate_halts id item :
  spec NB (candidate mi id item)
       (λ c s, match c with Next => NB s | Break => HT s end) NB.
Proof.
  intros [w tr n seen] Hs. unfold NoBudget, Halted in *. simpl in *.
  unfold candidate, get_id_found, get_yielded_items, set_yielded_items,
    set_id_found, emit, lift, mbind, M_bind. simpl.
  destruct (seen !! id); simpl; [done|].
  destruct (py_ge n mi) as [[|]|e] eqn:Hge; simpl; [| |done].
  - split; [|done]. by exists tr, n, mi.
  - apply Forall_app. split; [done|]. apply Forall_singleton. by intros [].
Qed.

Lemma break_if_reached_halts :
  spec (λ s, NB s ∨ HT s) (break_if_reached mi) goes_on_or_halts NB.
Proof.
  intros s Hs. unfold break_if_reached, get_yielded_items, lift, mbind, M_bind.
  simpl. destruct Hs as [Hs|[Hlast Hge]].
  - destruct (py_ge (yielded_items s) mi) as [[|]|e]; simpl; [by left|done|done].
  - rewrite Hge. simpl. right. by split.
Qed.

Lemma comment_iteration_halts post_title cv :
  spec NB (comment_iteration mi post_title cv) goes_on_or_halts NB.
Proof.
  unfold comment_iteration.
  apply spec_getitem; [done|]. intros c _.
  apply spec_getitem; [done|]. intros comment_id _.
  apply spec_getitem; [done|]. intros comment_text _.
  apply spec_getitem; [done|]. intros comment_date _.
  apply spec_getitem; [done|]. intros comment_url _.
  apply spec_getitem; [done|]. intros comment_parent_id _.
  apply spec_getitem; [done|]. intros author_id _.
  eapply spec_weaken; [apply candidate_halts|done| |done].
  intros [|] s Hs; [done|by right].
Qed.

Lemma post_iteration_halts mo segmented_community_name pv :
  spec NB (post_iteration mo mi segmented_community_name pv)
       goes_on_or_halts NB.
Proof.
  unfold post_iteration.
  apply spec_getitem; [done|]. intros post _.
  apply spec_getitem; [done|]. intros post_id _.
  apply spec_getitem; [done|]. intros post_url _.
  apply spec_getitem; [done|]. intros post_author_id _.
  apply spec_getitem; [done|]. intros post_date _.
  cbv zeta.
  destruct (match po_name post with
            | Some name => _
            | None => _
            end) as [post_title post_content].
  apply spec_lift; [done|]. intros content _.
  eapply spec_bind; [apply (keeps_now NB NB_world NB_quiet)|]. intros t.
  eapply spec_bind; [apply (keeps_parse_published NB)|]. intros d.
  apply spec_lift; [done|]. intros age _.
  apply spec_lift; [done|]. intros limit _.
  eapply spec_bind with
    (Q := λ c s, match c with Next => NB s | Break => HT s end).
  - case_bool_decide; [apply candidate_halts|by apply spec_ret].
  - intros [|]; [|apply spec_ret; intros s Hs; by right].
    eapply spec_bind;
      [eapply keeps_fetch_comments_for_post;
         first [exact NB_world | exact NB_quiet]|].
    intros comments.
    eapply spec_bind with (Q := λ _ s, NB s ∨ HT s).
    + destruct comments as [[|cv l]|]; try (apply spec_ret; intros s Hs; by left).
      apply spec_for_each_halt. intros x. apply comment_iteration_halts.
    + intros []. apply break_if_reached_halts.
Qed.

Lemma community_iteration_halts mo cv :
  spec NB (community_iteration mo mi cv) goes_on_or_halts NB.
Proof.
  unfold community_iteration.
  apply spec_getitem; [done|]. intros c _.
  apply spec_getitem; [done|]. intros name _.
  eapply spec_bind;
    [eapply keeps_fetch_new_posts_from_community;
       first [exact NB_world | exact NB_quiet]|].
  intros posts. cbv zeta.
  eapply spec_bind with (Q := λ _ s, NB s ∨ HT s).
  - destruct posts as [[[posts|]]|]; try (apply spec_ret; intros s Hs; by left).
    apply spec_for_each_halt. intros x. apply post_iteration_halts.
  - intros []. apply break_if_reached_halts.
Qed.

Lemma browse_halts mo communities :
  spec NB (browse mo mi communities) (λ _ s, NB s ∨ HT s) NB.
Proof.
  unfold browse.
  eapply spec_bind;
    [eapply keeps_select_communities; first [exact NB_world | exact NB_quiet]|].
  intros selected.
  eapply spec_bind; [apply (keeps_titles_of NB)|]. intros titles. cbv zeta.
  apply spec_for_each_halt. intros x. apply community_iteration_halts.
Qed.

End Budget.

Lemma query_halts parameters :
  spec NB (query parameters)
       (λ _ s, NB s ∨ ∃ mi, Halted mi s) NB.
Proof.
  unfold query.
  apply spec_lift; [done|]. intros [[mo mi] ml] _.
  eapply spec_bind with (Q := λ _, NB); [by intros [w tr n seen] Hs|].
  intros [].
  eapply spec_bind; [eapply keeps_random_choice; exact NB_world|].
  intros selected_sort.
  eapply spec_bind;
    [eapply keeps_fetch_communities; first [exact NB_world | exact NB_quiet]|].
  intros communities.
  eapply spec_bind with (Q := λ _, NB); [by intros [w tr n seen] Hs|].
  intros [].
  destruct communities as [|cv communities].
  { apply spec_ret. intros s Hs. by left. }
  eapply spec_try_except with (E' := NB).
  - eapply spec_weaken; [apply (browse_halts mi mo)|done| |done].
    intros [] s [Hs|Hs]; [by left|right; by exists mi].
  - intros e. eapply spec_weaken;
      [by apply (keeps_emit NB NB_quiet (EvException e))|done| |done].
    intros [] s Hs. by left.
Qed.

(** Once the budget is found reached, [query] does nothing more: the log
    "Maximum items to collect reached" is the last event of the
    invocation (no request, no reading of the clock, no yield and no log
    follows it), and it is logged at most once. *)
Theorem query_stops_at_budget (parameters : pyarg) (w : W)
    (pre post : list event) (n : Z) (m : pyval) :
  (run_query parameters w).1 = pre ++ EvBudgetReached n m :: post →
  post = [] ∧ Forall (λ e, ¬ is_budget e) pre.
Proof.
  unfold run_query.
  pose proof (query_halts parameters (start w)) as H.
  assert (NB (start w)) as H0 by constructor. specialize (H H0).
  destruct (query parameters (start w)) as [s r]. simpl. intros E.
  assert (NB s ∨ ∃ mi, Halted mi s) as [Hs|[mi [(tr & n' & m' & Htr & Hno) _]]]
    by (destruct r as [[]|e]; [done|by left]).
  - unfold NoBudget in Hs. rewrite E in Hs.
    apply Forall_app in Hs as [_ Hs]. apply Forall_cons in Hs as [Hs _].
    by destruct Hs.
  - rewrite Htr in E. apply snoc_split in E as [(-> & -> & _)|(post' & -> & ->)].
    + done.
    + apply Forall_app in Hno as [_ Hno]. apply Forall_cons in Hno as [Hno _].
      by destruct Hno.
Qed.

End Halting.

Lemma query_stops_at_budget_witness :
  (run_query (the_world := Scenario.busy) (the_library := Scenario.library)
     (ArgDict Scenario.no_items) 10000000).1
    = [EvGet (CommunityList "TopDay"); EvGet (PostList "c0"); EvNow 10000000]
      ++ EvBudgetReached 0 (PyInt 0) :: [] ∧
  ([] : list event) = [] ∧
  Forall (λ e, ¬ is_budget e)
    [EvGet (CommunityList "TopDay"); EvGet (PostList "c0"); EvNow 10000000].
Proof.
  assert ((run_query (the_world := Scenario.busy)
             (the_library := Scenario.library)
             (ArgDict Scenario.no_items) 10000000).1
          = [EvGet (CommunityList "TopDay"); EvGet (PostList "c0");
             EvNow 10000000] ++ EvBudgetReached 0 (PyInt 0) :: []) as E
    by (vm_compute; reflexivity).
  split; [exact E|].
  exact (query_stops_at_budget (the_world := Scenario.busy)
           (the_library := Scenario.library)
           (ArgDict Scenario.no_items) 10000000 _ _ _ _ E).
Defined.

(** *** query, continued: parameters that are not integers, no communities *)

Section Integers.
Context {the_library : Library}.


End Integers.

Section Edges.
Context {W : Type} {the_world : World W} {the_library : Library}.


(** When the list of communities is answered with a status other than
    200, [query] ends normally after that one request: it yields nothing
    and asks for no post and no comment. *)
Theorem query_without_communities
    (d : gmap string pyval) (w : W) (status : Z) :
  d ≠ ∅ →
  status ≠ 200 →
  (∀ sort user_agent w', ∃ json w'',
     get_community_list sort user_agent w' = (Response status json, w'')) →
  ∃ sort, run_query (ArgDict d) w = ([EvGet (CommunityList sort)], Ok ()).
Proof.
  intros Hd Hstatus Hworld.
  destruct (random_choice_sorts (Frame w [] 0 ∅)) as (s1 & sort & Hsort).
  assert (trace s1 = []) as Htr.
  { pose proof (keeps_random_choice (λ s, trace s = [])
                  ltac:(done) sorts (Frame w [] 0 ∅) eq_refl) as H.
    by rewrite Hsort in H. }
  exists sort. unfold run_query, query.
  rewrite read_parameters_dict by done.
  unfold mbind at 1, M_bind at 1, lift at 1.
  unfold mbind at 1, M_bind at 1, set_yielded_items at 1.
  unfold start. cbn [world trace yielded_items id_found].
  unfold mbind at 1, M_bind at 1. rewrite Hsort.
  unfold mbind at 1, M_bind at 1.
  assert (∃ w2, fetch_communities sort s1
                = (Frame w2 [EvGet (CommunityList sort)] (yielded_items s1)
                         (id_found s1), Ok [])) as [w2 ->].
  { unfold fetch_communities, random_choice, io, emit, mbind, M_bind.
    cbn -[Nat.modulo]. destruct (randbelow 1 (world s1)) as [j w1].
    rewrite Nat.mod_1_r. cbn.
    destruct (Hworld sort (hd ""%string USER_AGENT_LIST) w1) as (json & w2 & Hget).
    cbn in Hget. rewrite Hget. cbn.
    rewrite bool_decide_eq_false_2 by done. rewrite Htr. by exists w2. }
  done.
Qed.

End Edges.


Lemma query_without_communities_witness :
  Scenario.three_items ≠ ∅ ∧
  404 ≠ 200 ∧
  (∀ sort user_agent w', ∃ json w'',
     get_community_list (World := Scenario.answering 404) sort user_agent w'
       = (Response 404 json, w'')) ∧
  ∃ sort,
    run_query (the_world := Scenario.answering 404)
              (the_library := Scenario.library)
              (ArgDict Scenario.three_items) 0
      = ([EvGet (CommunityList sort)], Ok ()).
Proof.
  assert (Scenario.three_items ≠ ∅) as Hd by apply insert_non_empty.
  assert (404 ≠ 200) as Hstatus by discriminate.
  assert (∀ sort user_agent w', ∃ json w'',
            get_community_list (World := Scenario.answering 404)
              sort user_agent w' = (Response 404 json, w'')) as Hworld
    by (intros sort user_agent w'; by eexists _, _).
  split; [exact Hd|]. split; [exact Hstatus|]. split; [exact Hworld|].
  exact (query_without_communities (the_world := Scenario.answering 404)
           (the_library := Scenario.library)
           Scenario.three_items 0 404 Hd Hstatus Hworld).
Defined.

(** *** query, continued: the requests for posts *)

Lemma post_requests_app tr1 tr2 :
  post_requests (tr1 ++ tr2) = post_requests tr1 ++ post_requests tr2.
Proof.
  induction tr1 as [|e tr1 IH]; [done|].
  destruct e as [[]| | | |]; simpl; by rewrite ?IH.
Qed.

Lemma post_requests_snoc_other tr e :
  ¬ is_post_request e → post_requests (tr ++ [e]) = post_requests tr.
Proof.
  intros He. rewrite post_requests_app.
  destruct e as [[]| | | |]; simpl in *; try by rewrite app_nil_r.
  by destruct He.
Qed.

Lemma by_name_fmap d : by_name d → name_of <$> d.*2 = Some <$> d.*1.
Proof.
  intros [_ Hnames]. induction d as [|[k v] d IH]; [done|]. csimpl. f_equal.
  - apply Hnames. by left.
  - apply IH. intros k0 v0 Hin. apply Hnames. by right.
Qed.

Section Requests.
Context {W : Type} {the_world : World W} {the_library : Library}.

Local Abbreviation R := (Requested (W:=W)).

Lemma R_world L w tr n seen w' :
  R L (Frame w tr n seen) → R L (Frame w' tr n seen).
Proof. done. Qed.

Lemma R_emit L e :
  ¬ is_post_request e → spec (R L) (emit e) (λ _, R L) (R L).
Proof.
  intros He [w tr n seen] Hs. unfold Requested in *. simpl in *.
  by rewrite post_requests_snoc_other.
Qed.

Lemma R_now L : spec (R L) now (λ _, R L) (R L).
Proof.
  unfold now.
  eapply spec_bind; [apply (keeps_io (R L) (R_world L))|]. intros t.
  eapply spec_bind; [apply R_emit; by intros []|]. intros [].
  by apply spec_ret.
Qed.

Lemma R_keep_fresh L mo comments acc :
  spec (R L) (keep_fresh mo comments acc) (λ _, R L) (R L).
Proof.
  revert acc. induction comments as [|cv comments IH]; intros acc; simpl.
  { by apply spec_ret. }
  apply spec_getitem; [done|]. intros c _.
  apply spec_getitem; [done|]. intros p _.
  apply spec_parse_published; [done|]. intros d _ _.
  eapply spec_bind; [apply R_now|]. intros t.
  apply spec_lift; [done|]. intros age _.
  apply spec_lift; [done|]. intros limit _.
  case_bool_decide; apply IH.
Qed.

Lemma R_fetch_comments_for_post L id mo :
  spec (R L) (fetch_comments_for_post id mo) (λ _, R L) (R L).
Proof.
  unfold fetch_comments_for_post.
  eapply spec_bind; [apply (keeps_random_choice (R L) (R_world L))|].
  intros user_agent.
  eapply spec_bind; [apply R_emit; by intros []|]. intros [].
  eapply spec_bind; [apply (keeps_io (R L) (R_world L))|].
  intros [status json|e]; [|by intros s Hs].
  case_bool_decide; [|by apply spec_ret].
  apply spec_lift; [done|]. intros data _.
  eapply spec_bind; [apply R_keep_fresh|]. intros r. by apply spec_ret.
Qed.

Lemma R_candidate L mi id item :
  spec (R L) (candidate mi id item) (λ _, R L) (R L).
Proof.
  intros [w tr n seen] Hs. unfold Requested in *. simpl in *.
  unfold candidate, get_id_found, get_yielded_items, set_yielded_items,
    set_id_found, emit, lift, mbind, M_bind. simpl.
  destruct (seen !! id); simpl; [done|].
  destruct (py_ge n mi) as [[|]|e]; simpl; [| |done];
    by rewrite post_requests_snoc_other by (by intros []).
Qed.

Lemma R_comment_iteration L mi post_title cv :
  spec (R L) (comment_iteration mi post_title cv) (λ _, R L) (R L).
Proof.
  unfold comment_iteration.
  do 7 (apply spec_getitem; [done|]; intros ? _).
  apply R_candidate.
Qed.

Lemma R_post_iteration L mo mi segmented_community_name pv :
  spec (R L) (post_iteration mo mi segmented_community_name pv)
       (λ _, R L) (R L).
Proof.
  unfold post_iteration.
  do 5 (apply spec_getitem; [done|]; intros ? _).
  cbv zeta.
  destruct (match po_name _ with
            | Some name => _
            | None => _
            end) as [post_title post_content].
  apply spec_lift; [done|]. intros content _.
  eapply spec_bind; [apply R_now|]. intros t.
  eapply spec_bind; [apply (keeps_parse_published (R L))|]. intros d.
  apply spec_lift; [done|]. intros age _.
  apply spec_lift; [done|]. intros limit _.
  eapply spec_bind with (Q := λ _, R L).
  - case_bool_decide; [apply R_candidate|by apply spec_ret].
  - intros [|]; [|by apply spec_ret].
    eapply spec_bind; [apply R_fetch_comments_for_post|]. intros comments.
    eapply spec_bind with (Q := λ _, R L).
    + destruct comments as [[|cv l]|]; try by apply spec_ret.
      apply (spec_for_each _ (λ _, R L) (R L) (R L)); [|done].
      intros x rest. apply R_comment_iteration.
    + intros []. apply (keeps_break_if_reached (R L)).
Qed.

(** One community: its posts are requested, once, and no others. *)
Lemma R_community_iteration L mo mi cv :
  spec (R L) (community_iteration mo mi cv)
       (λ _ s, ∃ name, name_of cv = Some name ∧ R (L ++ [name]) s)
       (λ s, R L s ∨ ∃ name, name_of cv = Some name ∧ R (L ++ [name]) s).
Proof.
  unfold community_iteration.
  apply spec_getitem; [by left|]. intros c Hc.
  apply spec_getitem; [by left|]. intros name Hname.
  assert (name_of cv = Some name) as Hcv by (unfold name_of; by rewrite Hc).
  eapply spec_weaken with
    (Q' := λ _, R (L ++ [name])) (E' := λ s, R L s ∨ R (L ++ [name]) s);
    [|done|by eauto|by intros s [?|?]; eauto].
  eapply spec_bind with (Q := λ _, R (L ++ [name])).
  - unfold fetch_new_posts_from_community.
    eapply spec_bind with (Q := λ _, R L).
    { eapply spec_weaken;
        [apply (keeps_random_choice (R L) (R_world L))|done|done|by left]. }
    intros user_agent.
    eapply spec_bind with (Q := λ _, R (L ++ [name])).
    { intros [w tr n seen] Hs. unfold Requested in *. simpl in *.
      rewrite post_requests_app, Hs. done. }
    intros [].
    eapply spec_weaken with
      (Q' := λ _, R (L ++ [name])) (E' := R (L ++ [name]));
      [|done|done|by right].
    eapply spec_bind; [apply (keeps_io _ (R_world (L ++ [name])))|].
    intros [status json|e]; [|by intros s Hs].
    case_bool_decide; [|by apply spec_ret].
    apply spec_lift; [done|]. intros data _. by apply spec_ret.
  - intros posts. cbv zeta.
    eapply spec_weaken with
      (Q' := λ _, R (L ++ [name])) (E' := R (L ++ [name]));
      [|done|done|by right].
    eapply spec_bind with (Q := λ _, R (L ++ [name])).
    + destruct posts as [[[posts|]]|]; try by apply spec_ret.
      apply (spec_for_each _ (λ _, R (L ++ [name])) (R (L ++ [name]))
               (R (L ++ [name]))); [|done].
      intros x rest. apply R_post_iteration.
    + intros []. apply (keeps_break_if_reached (R (L ++ [name]))).
Qed.

(** The sampler, whatever the communities are: when it returns, the
    selected communities have pairwise distinct names and are at most
    20. *)
Lemma select_communities_names (P : @frame W → Prop) communities :
  (∀ w tr n seen w', P (Frame w tr n seen) → P (Frame w' tr n seen)) →
  spec P (select_communities communities)
       (λ sel s, P s ∧ ∃ names, name_of <$> sel = Some <$> names ∧
                                NoDup names ∧ (length names ≤ 20)%nat)
       P.
Proof.
  intros P_world. unfold select_communities, random_sample,
    LEMMY_NB_COMMUNITIES_TO_BROWSE, LEMMY_DEFAULT_TOP_COMMUNITIES.
  assert (∀ A (pool : list A) k,
            spec P (draw pool k) (λ r s, P s ∧ length r = k) P) as Hdraw.
  { intros A pool k. revert pool. induction k as [|k IH]; intros pool; simpl.
    { by apply spec_ret. }
    apply (spec_io P P_world). intros j.
    destruct (pool !! _) as [a|]; [|by intros s Hs].
    eapply spec_bind; [apply IH|]. intros rest.
    apply spec_ret. intros s [Hs <-]. done. }
  assert (∀ l d, by_name d →
            spec P (dict_by_name l d)
              (λ d' s, P s ∧ by_name d' ∧ (length d' ≤ length d + length l)%nat)
              P) as Hdict.
  { intros l. induction l as [|v l IH]; intros d Hd; simpl.
    { apply spec_ret. intros s Hs. split; [done|]. split; [done|lia]. }
    apply spec_getitem; [done|]. intros c Hc.
    apply spec_getitem; [done|]. intros k Hk.
    assert (name_of v = Some k) as Hname by (unfold name_of; by rewrite Hc).
    eapply spec_weaken;
      [apply (IH _ (by_name_dict_set _ _ _ Hname Hd))|done| |done].
    intros d' s (Hs & Hd' & Hlen). split; [done|]. split; [done|].
    pose proof (dict_set_length k v d). simpl. lia. }
  eapply spec_bind with (Q := λ first s, P s ∧ length first = 10%nat).
  { case_bool_decide; [apply Hdraw|by intros s Hs]. }
  intros first. apply (spec_assume P). intros Hfirst.
  eapply spec_bind with (Q := λ sampled s, P s ∧ (length sampled ≤ 20)%nat).
  - case_bool_decide.
    + eapply spec_bind with (Q := λ top s, P s ∧ length top = 10%nat).
      { case_bool_decide; [apply Hdraw|by intros s Hs]. }
      intros top. apply (spec_assume P). intros Htop.
      apply spec_ret. intros s Hs. split; [done|]. rewrite length_app. lia.
    + apply spec_ret. intros s Hs. split; [done|lia].
  - intros sampled. apply (spec_assume P). intros Hsampled.
    eapply spec_bind.
    + apply Hdict. split; [constructor|]. by intros k v ?%elem_of_nil.
    + intros d. apply spec_ret. intros s (Hs & Hd & Hlen).
      split; [done|]. exists d.*1.
      split; [by apply by_name_fmap|]. split; [apply Hd|].
      rewrite length_fmap. simpl in Hlen. lia.
Qed.

Lemma R_browse mo mi communities :
  spec (R []) (browse mo mi communities) (λ _, Bounded) Bounded.
Proof.
  unfold browse.
  eapply spec_bind with
    (Q := λ sel s, R [] s ∧ ∃ names, name_of <$> sel = Some <$> names ∧
                                     NoDup names ∧ (length names ≤ 20)%nat).
  { eapply spec_weaken;
      [apply (select_communities_names (R []) communities (R_world []))
      |done|done|].
    intros s Hs. exists []. split; [constructor|]. split; [simpl; lia|].
    unfold Requested in Hs. rewrite Hs. by exists []. }
  intros sel.
  assert (∀ names (s : @frame W),
            NoDup names → (length names ≤ 20)%nat →
            post_requests (trace s) `prefix_of` names → Bounded s) as Hb.
  { intros names s ? ? ?. by exists names. }
  eapply spec_weaken with
    (P' := λ s, ∃ names, (name_of <$> sel = Some <$> names ∧ NoDup names ∧
                          (length names ≤ 20)%nat) ∧ R [] s)
    (Q' := λ _, Bounded) (E' := Bounded); [| |done|done].
  2: { intros s (Hs & names & Hn). by exists names. }
  intros s (names & (Hsel & Hnd & Hlen) & Hs). revert s Hs.
  change (spec (R []) (titles_of sel ≫= λ titles,
            for_each (community_iteration mo mi) sel) (λ _, Bounded) Bounded).
  eapply spec_bind with (Q := λ _, R []).
  { eapply spec_weaken; [apply (keeps_titles_of (R []))|done|done|].
    intros s Hs. apply (Hb names); [done|done|].
    unfold Requested in Hs. rewrite Hs. apply prefix_nil. }
  intros titles.
  eapply spec_weaken;
    [apply (spec_for_each _
              (λ rest s, ∃ rest_names,
                 name_of <$> rest = Some <$> rest_names ∧
                 post_requests (trace s) ++ rest_names = names)
              Bounded Bounded)
    | |done|done].
  - intros x rest s (rest_names & Hrest & Hall).
    destruct rest_names as [|name rest_names]; [done|].
    injection Hrest as Hx Hrest.
    pose proof (R_community_iteration (post_requests (trace s)) mo mi x s
                  eq_refl) as H.
    destruct (community_iteration mo mi x s) as [s' [c|e]].
    + destruct H as (name' & Hname' & Hs'). exists rest_names.
      split; [done|]. unfold Requested in Hs'. rewrite Hs', <- Hall.
      rewrite <- app_assoc. simpl. congruence.
    + apply (Hb names); [done|done|].
      destruct H as [Hs'|(name' & Hname' & Hs')]; unfold Requested in Hs';
        rewrite Hs', <- Hall.
      * by apply prefix_app_r.
      * assert (name' = name) as -> by congruence.
        exists rest_names. by rewrite <- app_assoc.
  - intros rest s (rest_names & _ & Hall). apply (Hb names); [done|done|].
    rewrite <- Hall. by apply prefix_app_r.
  - intros s Hs. exists names. split; [done|].
    unfold Requested in Hs. by rewrite Hs.
Qed.

Lemma R_query parameters :
  spec (R []) (query parameters) (λ _, Bounded) Bounded.
Proof.
  assert (∀ s : @frame W, R [] s → Bounded s) as Hb.
  { intros s Hs. exists []. split; [constructor|]. split; [simpl; lia|].
    unfold Requested in Hs. rewrite Hs. by exists []. }
  unfold query.
  apply spec_lift; [exact Hb|]. intros [[mo mi] ml] _.
  eapply spec_bind with (Q := λ _, R []); [by intros [w tr n seen] Hs|].
  intros [].
  eapply spec_bind with (Q := λ _, R []).
  { eapply spec_weaken;
      [apply (keeps_random_choice (R []) (R_world []))|done|done|exact Hb]. }
  intros selected_sort.
  eapply spec_bind with (Q := λ _, R []).
  { unfold fetch_communities.
    eapply spec_weaken with (P' := R []) (Q' := λ _, R []) (E' := R []);
      [|done|done|exact Hb].
    eapply spec_bind; [apply (keeps_random_choice (R []) (R_world []))|].
    intros user_agent.
    eapply spec_bind; [apply R_emit; by intros []|]. intros [].
    eapply spec_bind; [apply (keeps_io (R []) (R_world []))|].
    intros [status json|e]; [|by intros s Hs].
    case_bool_decide; [|by apply spec_ret].
    apply spec_lift; [done|]. intros data _. apply (keeps_getitem (R [])). }
  intros communities.
  eapply spec_bind with (Q := λ _, R []); [by intros [w tr n seen] Hs|].
  intros [].
  destruct communities as [|cv communities]; [by apply spec_ret|].
  eapply spec_try_except; [apply R_browse|].
  intros e [w tr n seen] (names & Hnd & Hlen & Hpre). exists names.
  split; [done|]. split; [done|]. simpl in *.
  by rewrite post_requests_snoc_other by (by intros []).
Qed.

(** In one invocation the posts of a community are requested at most
    once, and the posts of at most 20 communities are requested. *)
Theorem query_requests_each_community_once (parameters : pyarg) (w : W) :
  NoDup (post_requests (run_query parameters w).1) ∧
  (length (post_requests (run_query parameters w).1) ≤ 20)%nat.
Proof.
  unfold run_query.
  pose proof (R_query parameters (start w) eq_refl) as H.
  destruct (query parameters (start w)) as [s r]. simpl.
  assert (Bounded s) as (names & Hnd & Hlen & [k ->])
    by by destruct r as [[]|e].
  split.
  - by apply NoDup_app in Hnd as [? _].
  - rewrite length_app in Hlen. lia.
Qed.

End Requests.
